(** * Invisible Maze: the game logic of [client/script.js]

    A shallow embedding of the maze generator, the connectivity check and
    the navigation engine, with the properties stated about them.

    Modelling conventions.
    - The global [STATE] object becomes the record [State]; every function
      that mutates it takes the state and returns the new one.
    - Grid coordinates, counters and sizes are JavaScript numbers holding
      integers: they are [Z] here.
    - The direction strings ['top'], ['bottom'], ['left'], ['right'] are the
      constructors of [Dir].
    - The [visited] set of [hasPath] holds the keys [`${x},${y}`]; such a
      key determines the pair of integers ([cellKeyString_inj]), and the set
      is a [gset (Z * Z)]. The keys of [revealedWalls] are kept as strings.
    - Calls into the DOM (rendering, alerts, screens, timers) are recorded
      as a list of [UiCall] returned next to the state.
    - [Math.random()] is an explicit randomness source [Rng]. *)

From Stdlib Require Import Ascii QArith Qround.
From stdpp Require Import base tactics option list numbers gmap sets
  strings pretty relations.

Set Warnings "-clear-no-such-hyp".
Local Open Scope Z_scope.

(** ** Configuration and state *)

Inductive Difficulty := EASY | MEDIUM | HARD.
Inductive Mode := PRACTICE | CHALLENGE.
Inductive Dir := DirTop | DirBottom | DirLeft | DirRight.

Global Instance Difficulty_eq_dec : EqDecision Difficulty.
Proof. solve_decision. Defined.
Global Instance Mode_eq_dec : EqDecision Mode.
Proof. solve_decision. Defined.
Global Instance Dir_eq_dec : EqDecision Dir.
Proof. solve_decision. Defined.

Record LevelConfig := { cfg_size : Z; cfg_walls : Z }.

(** [const CONFIG = { EASY: ..., MEDIUM: ..., HARD: ... }] *)
Definition CONFIG (d : Difficulty) : LevelConfig :=
  match d with
  | EASY => {| cfg_size := 3; cfg_walls := 2 |}
  | MEDIUM => {| cfg_size := 4; cfg_walls := 6 |}
  | HARD => {| cfg_size := 5; cfg_walls := 12 |}
  end.

(** A cell object [{x, y}]. *)
Record Pos := mkPos { px : Z; py : Z }.

(** A wall object [{x, y, dir}]; [dir] is ['right'] or ['bottom']. *)
Record Wall := mkWall { wx : Z; wy : Z; wdir : Dir }.

Global Instance Pos_eq_dec : EqDecision Pos.
Proof. solve_decision. Defined.
Global Instance Wall_eq_dec : EqDecision Wall.
Proof. solve_decision. Defined.

(** The fields of [STATE] the game logic reads or writes ([startTime] and
    [timerInterval] only feed the clock display). *)
Record State := mkState {
  difficulty : Difficulty;
  mode : Mode;
  gridSize : Z;
  avatarPos : Pos;
  keyPos : Pos;
  doorPos : Pos;
  hasKey : bool;
  attempts : Z;
  walls : list Wall;
  revealedWalls : list string;
  currentLevel : Z;
  isPlaying : bool
}.

Definition initialState : State :=
  {| difficulty := EASY; mode := PRACTICE; gridSize := 3;
     avatarPos := mkPos 0 0; keyPos := mkPos 0 0; doorPos := mkPos 0 0;
     hasKey := false; attempts := 0; walls := []; revealedWalls := [];
     currentLevel := 1; isPlaying := false |}.

(** Field assignments [STATE.f = v]. *)
Definition set_difficulty (v : Difficulty) (s : State) : State :=
  mkState v (mode s) (gridSize s) (avatarPos s) (keyPos s) (doorPos s)
    (hasKey s) (attempts s) (walls s) (revealedWalls s) (currentLevel s)
    (isPlaying s).
Definition set_mode (v : Mode) (s : State) : State :=
  mkState (difficulty s) v (gridSize s) (avatarPos s) (keyPos s) (doorPos s)
    (hasKey s) (attempts s) (walls s) (revealedWalls s) (currentLevel s)
    (isPlaying s).
Definition set_gridSize (v : Z) (s : State) : State :=
  mkState (difficulty s) (mode s) v (avatarPos s) (keyPos s) (doorPos s)
    (hasKey s) (attempts s) (walls s) (revealedWalls s) (currentLevel s)
    (isPlaying s).
Definition set_avatarPos (v : Pos) (s : State) : State :=
  mkState (difficulty s) (mode s) (gridSize s) v (keyPos s) (doorPos s)
    (hasKey s) (attempts s) (walls s) (revealedWalls s) (currentLevel s)
    (isPlaying s).
Definition set_keyPos (v : Pos) (s : State) : State :=
  mkState (difficulty s) (mode s) (gridSize s) (avatarPos s) v (doorPos s)
    (hasKey s) (attempts s) (walls s) (revealedWalls s) (currentLevel s)
    (isPlaying s).
Definition set_doorPos (v : Pos) (s : State) : State :=
  mkState (difficulty s) (mode s) (gridSize s) (avatarPos s) (keyPos s) v
    (hasKey s) (attempts s) (walls s) (revealedWalls s) (currentLevel s)
    (isPlaying s).
Definition set_hasKey (v : bool) (s : State) : State :=
  mkState (difficulty s) (mode s) (gridSize s) (avatarPos s) (keyPos s)
    (doorPos s) v (attempts s) (walls s) (revealedWalls s) (currentLevel s)
    (isPlaying s).
Definition set_attempts (v : Z) (s : State) : State :=
  mkState (difficulty s) (mode s) (gridSize s) (avatarPos s) (keyPos s)
    (doorPos s) (hasKey s) v (walls s) (revealedWalls s) (currentLevel s)
    (isPlaying s).
Definition set_walls (v : list Wall) (s : State) : State :=
  mkState (difficulty s) (mode s) (gridSize s) (avatarPos s) (keyPos s)
    (doorPos s) (hasKey s) (attempts s) v (revealedWalls s) (currentLevel s)
    (isPlaying s).
Definition set_revealedWalls (v : list string) (s : State) : State :=
  mkState (difficulty s) (mode s) (gridSize s) (avatarPos s) (keyPos s)
    (doorPos s) (hasKey s) (attempts s) (walls s) v (currentLevel s)
    (isPlaying s).
Definition set_currentLevel (v : Z) (s : State) : State :=
  mkState (difficulty s) (mode s) (gridSize s) (avatarPos s) (keyPos s)
    (doorPos s) (hasKey s) (attempts s) (walls s) (revealedWalls s) v
    (isPlaying s).
Definition set_isPlaying (v : bool) (s : State) : State :=
  mkState (difficulty s) (mode s) (gridSize s) (avatarPos s) (keyPos s)
    (doorPos s) (hasKey s) (attempts s) (walls s) (revealedWalls s)
    (currentLevel s) v.

(** ** Grid model: [hasWall] *)

(** [STATE.walls.some(w => w.x === x && w.y === y && w.dir === d)] *)
Definition wallAt (st : State) (x y : Z) (d : Dir) : bool :=
  existsb (fun w => (wx w =? x) && (wy w =? y) && bool_decide (wdir w = d))
          (walls st).

Definition hasWall (st : State) (x y : Z) (moveDir : Dir) : bool :=
  match moveDir with
  | DirRight => wallAt st x y DirRight
  | DirLeft => wallAt st (x - 1) y DirRight
  | DirBottom => wallAt st x y DirBottom
  | DirTop => wallAt st x (y - 1) DirBottom
  end.

(** ** Connectivity checker: [hasPath] *)

(** The rows of the [dirs] table of [hasPath]: [{dx, dy, dir}]. *)
Record Delta := mkDelta { dx : Z; dy : Z; ddir : Dir }.

Definition dirs : list Delta :=
  [ mkDelta 0 (-1) DirTop; mkDelta 0 1 DirBottom;
    mkDelta (-1) 0 DirLeft; mkDelta 1 0 DirRight ].

Definition cellKey (p : Pos) : Z * Z := (px p, py p).

(** The body of [for (const d of dirs)]: the queue and the visited set
    after looking at the neighbour of [curr] in direction [d]. *)
Definition visitNeighbor (st : State) (curr : Pos)
    (acc : list Pos * gset (Z * Z)) (d : Delta) : list Pos * gset (Z * Z) :=
  let nx := px curr + dx d in
  let ny := py curr + dy d in
  if (0 <=? nx) && (nx <? gridSize st) && (0 <=? ny) && (ny <? gridSize st)
  then
    if negb (hasWall st (px curr) (py curr) (ddir d)) then
      if negb (bool_decide ((nx, ny) ∈ acc.2)) then
        (acc.1 ++ [mkPos nx ny], {[ (nx, ny) ]} ∪ acc.2)
      else acc
    else acc
  else acc.

(** The [while (queue.length > 0)] loop, one iteration per unit of fuel;
    [None] when the fuel runs out before the loop ends. *)
Fixpoint hasPathLoop (fuel : nat) (st : State) (end_ : Pos)
    (queue : list Pos) (visited : gset (Z * Z)) : option bool :=
  match fuel with
  | O => None
  | S fuel' =>
      match queue with
      | [] => Some false
      | curr :: rest =>
          if (px curr =? px end_) && (py curr =? py end_) then Some true
          else
            let acc := fold_left (visitNeighbor st curr) dirs (rest, visited) in
            hasPathLoop fuel' st end_ acc.1 acc.2
      end
  end.

Definition hasPathFuel (fuel : nat) (st : State) (start end_ : Pos)
    : option bool :=
  hasPathLoop fuel st end_ [start] {[ cellKey start ]}.

(** Enough iterations for any state: every iteration removes one cell
    from the queue, and beside [start] only unvisited grid cells enter it. *)
Definition loopBound (st : State) : nat :=
  Z.to_nat (gridSize st * gridSize st) + 2.

Definition hasPath (st : State) (start end_ : Pos) : bool :=
  match hasPathFuel (loopBound st) st start end_ with
  | Some b => b
  | None => false
  end.

Definition isSolvable (st : State) : bool :=
  let canReachKey := hasPath st (avatarPos st) (keyPos st) in
  if negb canReachKey then false
  else hasPath st (keyPos st) (doorPos st).

(** ** Maze generator: [generateLevel] *)

(** The randomness source. [draws] are the successive results of
    [Math.random()] read by the key placement, each in [[0,1)]; [shuffle] is
    the order in which [possibleWalls.sort(() => Math.random() - 0.5)] leaves
    the array: with such a comparator the order is up to the engine, and the
    array keeps its elements. *)
Record Rng := mkRng { draws : list Q; shuffle : list Wall -> list Wall }.

Definition rng_draws_ok (rng : Rng) : Prop :=
  Forall (fun r => (0 <= r)%Q /\ (r < 1)%Q) (draws rng).

Definition rng_shuffle_ok (rng : Rng) : Prop :=
  forall l, shuffle rng l ≡ₚ l.

(** [Math.floor(r * size)], with the product taken exactly: the code rounds
    it to a double before flooring, so for some draws the two indices
    differ by one. *)
Definition randomIndex (r : Q) (size : Z) : Z := Qfloor (r * inject_Z size).

Definition samePos (p q : Pos) : bool := (px p =? px q) && (py p =? py q).

(** The [do { ... } while (...)] loop placing the key: two draws per round;
    [None] when the draws run out before a round succeeds. *)
Fixpoint pickKey (size : Z) (rs : list Q) (st : State) : option State :=
  match rs with
  | rx :: ry :: rest =>
      let st1 := set_keyPos (mkPos (randomIndex rx size) (randomIndex ry size)) st in
      if samePos (keyPos st1) (avatarPos st1) || samePos (keyPos st1) (doorPos st1)
      then pickKey size rest st1
      else Some st1
  | _ => None
  end.

(** The two nested [for] loops filling [possibleWalls]. *)
Definition bottomWalls (size : Z) : list Wall :=
  y ← seqZ 0 (size - 1); x ← seqZ 0 size; [mkWall x y DirBottom].

Definition rightWalls (size : Z) : list Wall :=
  x ← seqZ 0 (size - 1); y ← seqZ 0 size; [mkWall x y DirRight].

Definition possibleWalls (size : Z) : list Wall :=
  bottomWalls size ++ rightWalls size.

(** [for (const wall of possibleWalls) { ... }]: push, test, pop or count. *)
Fixpoint addWalls (targetWalls : Z) (cands : list Wall) (addedWalls : Z)
    (st : State) : State :=
  match cands with
  | [] => st
  | wall :: rest =>
      if targetWalls <=? addedWalls then st
      else
        let st1 := set_walls (walls st ++ [wall]) st in
        if negb (isSolvable st1)
        then addWalls targetWalls rest addedWalls
               (set_walls (removelast (walls st1)) st1)
        else addWalls targetWalls rest (addedWalls + 1) st1
  end.

(** [generateLevel] with the wall target as an argument. *)
Definition generateLevelWith (targetWalls : Z) (rng : Rng) (st : State)
    : option State :=
  let size := gridSize st in
  let st := set_avatarPos (mkPos 0 (size - 1)) st in
  let st := set_doorPos (mkPos (size - 1) 0) st in
  st ← pickKey size (draws rng) st;
  let st := set_walls [] st in
  let shuffled := shuffle rng (possibleWalls size) in
  Some (addWalls targetWalls shuffled 0 st).

(** [const targetWalls = CONFIG[STATE.difficulty].walls] *)
Definition generateLevel (rng : Rng) (st : State) : option State :=
  generateLevelWith (cfg_walls (CONFIG (difficulty st))) rng st.

(** ** Navigation engine *)

Inductive Screen := ScreenStart | ScreenGame | ScreenSuccess.

(** What the logic asks of the page, in call order. *)
Inductive UiCall :=
  | RenderGrid
  | UpdateStats
  | FlashBackground
  | StartTimer   (* clear the running interval, if any, and set a new one *)
  | ClearTimer
  | ShowResult (finalAttempts : Z)
  | SaveScore
  | AlertGameOver
  | ShowScreen (s : Screen)
  | HideScreen (s : Screen).

Definition selectDifficulty (diff : Difficulty) (st : State) : State :=
  set_gridSize (cfg_size (CONFIG diff)) (set_difficulty diff st).

Definition setMode (m : Mode) (st : State) : State := set_mode m st.

Definition startGame (resetLevel : bool) (rng : Rng) (st : State)
    : option (State * list UiCall) :=
  let st := set_isPlaying true st in
  let st := set_attempts 0 st in
  let st := set_hasKey false st in
  let st := set_revealedWalls [] st in
  let st := if resetLevel then set_currentLevel 1 st else st in
  st ← generateLevel rng st;
  Some (st, [RenderGrid; UpdateStats; StartTimer;
             HideScreen ScreenStart; HideScreen ScreenSuccess]).

Definition endGame (success : bool) (st : State) : State * list UiCall :=
  let st := set_isPlaying false st in
  if success
  then (st, [ClearTimer; ShowResult (attempts st); SaveScore;
             ShowScreen ScreenSuccess])
  else (st, [ClearTimer; AlertGameOver; ShowScreen ScreenStart]).

(** [const score = Math.max(0, 1000 - (timeSec * 5) - (STATE.attempts * 50))] *)
Definition score (timeSec attempts_ : Z) : Z :=
  Z.max 0 (1000 - timeSec * 5 - attempts_ * 50).

Definition checkEntityCollision (st : State) : State * list UiCall :=
  let x := px (avatarPos st) in
  let y := py (avatarPos st) in
  let '(st, ev) :=
    if negb (hasKey st) && (x =? px (keyPos st)) && (y =? py (keyPos st))
    then (set_hasKey true st, [UpdateStats])
    else (st, []) in
  if (x =? px (doorPos st)) && (y =? py (doorPos st)) then
    if hasKey st then
      let '(st, ev') := endGame true st in (st, ev ++ ev')
    else (st, ev)
  else (st, ev).

(** The key under which [handleCollision] records the wall met when leaving
    [(fromX, fromY)] in direction [dir]. *)
Definition wallKeyOf (x y : Z) (d : string) : string :=
  pretty x +:+ "," +:+ pretty y +:+ "," +:+ d.

Definition collisionKey (fromX fromY : Z) (dir : Dir) : string :=
  match dir with
  | DirRight => wallKeyOf fromX fromY "right"
  | DirBottom => wallKeyOf fromX fromY "bottom"
  | DirLeft => wallKeyOf (fromX - 1) fromY "right"
  | DirTop => wallKeyOf fromX (fromY - 1) "bottom"
  end.

(** [STATE.revealedWalls.includes(k)] *)
Definition includes (k : string) (l : list string) : bool :=
  existsb (String.eqb k) l.

Definition handleCollision (fromX fromY : Z) (dir : Dir) (st : State)
    : State * list UiCall :=
  let st := set_attempts (attempts st + 1) st in
  let wallKey := collisionKey fromX fromY dir in
  let st :=
    if negb (includes wallKey (revealedWalls st))
    then set_revealedWalls (revealedWalls st ++ [wallKey]) st
    else st in
  let st := set_avatarPos (mkPos 0 (gridSize st - 1)) st in
  let ev := [UpdateStats; RenderGrid; FlashBackground] in
  match mode st with
  | CHALLENGE => let '(st, ev') := endGame false st in (st, ev ++ ev')
  | PRACTICE => (st, ev ++ [RenderGrid])
  end.

Definition moveAvatar (dir : Dir) (st : State) : State * list UiCall :=
  let x := px (avatarPos st) in
  let y := py (avatarPos st) in
  let ny := match dir with DirTop => y - 1 | DirBottom => y + 1 | _ => y end in
  let nx := match dir with DirLeft => x - 1 | DirRight => x + 1 | _ => x end in
  if (nx <? 0) || (gridSize st <=? nx) || (ny <? 0) || (gridSize st <=? ny)
  then (st, [])
  else if hasWall st x y dir then handleCollision x y dir st
  else
    let st := set_avatarPos (mkPos nx ny) st in
    let '(st, ev) := checkEntityCollision st in
    (st, ev ++ [RenderGrid]).

(** The [switch (e.key)] of [handleInput]. *)
Definition keyDir (key : string) : option Dir :=
  if bool_decide (key = "ArrowUp") || bool_decide (key = "w") then Some DirTop
  else if bool_decide (key = "ArrowDown") || bool_decide (key = "s") then Some DirBottom
  else if bool_decide (key = "ArrowLeft") || bool_decide (key = "a") then Some DirLeft
  else if bool_decide (key = "ArrowRight") || bool_decide (key = "d") then Some DirRight
  else None.

Definition handleInput (key : string) (st : State) : State * list UiCall :=
  if negb (isPlaying st) then (st, [])
  else match keyDir key with
       | Some dir => moveAvatar dir st
       | None => (st, [])
       end.

(** The click and touch handlers of the on-screen controls call
    [moveAvatar(btn.dataset.dir)] directly. *)
Definition controlButton (dir : Dir) (st : State) : State * list UiCall :=
  moveAvatar dir st.

(** A sequence of move requests, oldest first. *)
Definition runMoves (ds : list Dir) (st : State) : State :=
  fold_left (fun s d => (moveAvatar d s).1) ds st.

(** ** Vocabulary of the properties *)

Definition inGrid (st : State) (p : Pos) : Prop :=
  0 <= px p < gridSize st /\ 0 <= py p < gridSize st.

Definition moveBy (c : Pos) (d : Delta) : Pos :=
  mkPos (px c + dx d) (py c + dy d).

(** One move over an open edge of the grid. *)
Definition openStep (st : State) (c c' : Pos) : Prop :=
  exists d, d ∈ dirs /\ c' = moveBy c d /\ inGrid st c' /\
            hasWall st (px c) (py c) (ddir d) = false.

Definition connected (st : State) : Pos -> Pos -> Prop := rtc (openStep st).

(** The grid cells, as keys, and how many of them are not yet visited. *)
Definition gridCells (st : State) : gset (Z * Z) :=
  list_to_set (x ← seqZ 0 (gridSize st); y ← seqZ 0 (gridSize st); [(x, y)]).

Definition unvisited (st : State) (visited : gset (Z * Z)) : nat :=
  size (gridCells st ∖ visited).

(** A visited cell that has left the queue is not the target and has all
    its open neighbours visited. *)
Definition settled (st : State) (end_ : Pos) (visited : gset (Z * Z))
    (c : Pos) : Prop :=
  c <> end_ /\ forall c', openStep st c c' -> cellKey c' ∈ visited.

Definition bfsInv (st : State) (end_ : Pos) (queue : list Pos)
    (visited : gset (Z * Z)) : Prop :=
  (forall c, c ∈ queue -> cellKey c ∈ visited) /\
  (forall c, cellKey c ∈ visited -> c ∈ queue \/ settled st end_ visited c).

(** In bounds for its orientation: a ['right'] wall has a cell to its
    right, a ['bottom'] wall a cell below it. *)
Definition wallInBounds (size : Z) (w : Wall) : Prop :=
  match wdir w with
  | DirRight => (0 <= wx w < size - 1) /\ (0 <= wy w < size)
  | DirBottom => (0 <= wx w < size) /\ (0 <= wy w < size - 1)
  | _ => False
  end.




(** The cell next to [p] in direction [dir] ([nx], [ny] in [moveAvatar]). *)
Definition neighbor (p : Pos) (dir : Dir) : Pos :=
  mkPos (match dir with DirLeft => px p - 1 | DirRight => px p + 1 | _ => px p end)
        (match dir with DirTop => py p - 1 | DirBottom => py p + 1 | _ => py p end).

(** The name of a direction, as it appears in wall keys. *)
Definition dirName (d : Dir) : string :=
  match d with
  | DirTop => "top" | DirBottom => "bottom"
  | DirLeft => "left" | DirRight => "right"
  end.

(** The key [`${x},${y},${dir}`] of a stored wall, as [renderGrid] looks it
    up in [revealedWalls]. *)
Definition wallKey (w : Wall) : string :=
  wallKeyOf (wx w) (wy w) (dirName (wdir w)).

(** Every revealed key is the key of a wall of the maze. *)
Definition revealedSubset (st : State) : Prop :=
  forall k, k ∈ revealedWalls st -> exists w, w ∈ walls st /\ wallKey w = k.

(** The key [`${x},${y}`] under which [hasPath] records a visited cell. *)
Definition cellKeyString (p : Pos) : string :=
  pretty (px p) +:+ "," +:+ pretty (py p).

Fixpoint commaFree (s : string) : Prop :=
  match s with
  | EmptyString => True
  | String c s' => c <> ","%char /\ commaFree s'
  end.

(** ** Rendering, clock and screen buttons *)

(** What [renderGrid] puts in the cell [(x, y)]: the avatar, the key while
    it is not collected, the door (with its [open] class), and the revealed
    walls to the right of and below the cell. *)
Record CellView := mkCellView {
  cv_x : Z;
  cv_y : Z;
  cv_avatar : bool;
  cv_key : bool;
  cv_door : option bool;
  cv_wallRight : bool;
  cv_wallBottom : bool
}.

Definition renderCell (st : State) (x y : Z) : CellView :=
  {| cv_x := x;
     cv_y := y;
     cv_avatar := (x =? px (avatarPos st)) && (y =? py (avatarPos st));
     cv_key := negb (hasKey st) && (x =? px (keyPos st)) && (y =? py (keyPos st));
     cv_door := if (x =? px (doorPos st)) && (y =? py (doorPos st))
                then Some (hasKey st) else None;
     cv_wallRight := includes (wallKeyOf x y "right") (revealedWalls st);
     cv_wallBottom := includes (wallKeyOf x y "bottom") (revealedWalls st) |}.

(** The cells appended to the grid container, in creation order. *)
Definition renderGrid (st : State) : list CellView :=
  y ← seqZ 0 (gridSize st); x ← seqZ 0 (gridSize st); [renderCell st x y].

(** [Math.floor((Date.now() - STATE.startTime) / 1000)] *)
Definition elapsedSeconds (now startTime : Z) : Z := (now - startTime) / 1000.

(** [s.padStart(2, '0')] *)
Definition padStart2 (s : string) : string :=
  match String.length s with
  | 0%nat => "00"
  | 1%nat => "0" +:+ s
  | _ => s
  end.

(** The text [updateTimer] writes into the time field. *)
Definition updateTimer (now startTime : Z) : string :=
  let elapsed := elapsedSeconds now startTime in
  let mins := padStart2 (pretty (elapsed / 60)) in
  let secs := padStart2 (pretty (Z.rem elapsed 60)) in
  mins +:+ ":" +:+ secs.

(** The score [endGame] computes at time [now]. *)
Definition finalScore (now startTime : Z) (st : State) : Z :=
  score (elapsedSeconds now startTime) (attempts st).

(** The click handlers of the success screen. *)
Definition nextLevelClick (rng : Rng) (st : State)
    : option (State * list UiCall) :=
  let st := set_currentLevel (currentLevel st + 1) st in
  r ← startGame false rng st;
  Some (r.1, HideScreen ScreenSuccess :: r.2).

Definition restartClick (rng : Rng) (st : State)
    : option (State * list UiCall) :=
  r ← startGame false rng st;
  Some (r.1, HideScreen ScreenSuccess :: r.2).

(** The cell that owns the wall met when leaving [p] in direction [dir]. *)
Definition wallCell (p : Pos) (dir : Dir) : Pos :=
  match dir with
  | DirRight | DirBottom => p
  | DirLeft | DirTop => neighbor p dir
  end.

(** A sequence of key presses handled by [handleInput], oldest first. *)
Definition runKeys (keys : list string) (st : State) : State :=
  fold_left (fun s k => (handleInput k s).1) keys st.

(** A decimal digit as a character. *)
Definition digitChar (n : Z) : ascii := pretty_N_char (Z.to_N n).


(** ** Example levels *)

(** Draws that put the key at the centre of a 3 x 3 grid, and a shuffle
    that reverses the candidates. *)
Definition rngExample : Rng := mkRng [(1#2)%Q; (1#2)%Q] (@rev Wall).

(** The same after a first round that lands on the start cell (0,2) of a
    3 x 3 grid. *)
Definition rngRetry : Rng :=
  mkRng [(0#1)%Q; (9#10)%Q; (1#2)%Q; (1#2)%Q] (@rev Wall).

(** The level [startGame] builds from it: key at (1,1), walls to the right
    of (1,2) and of (1,1). *)
Definition levelExample (m : Mode) : State :=
  mkState EASY m 3 (mkPos 0 2) (mkPos 1 1) (mkPos 2 0) false 0
    [mkWall 1 2 DirRight; mkWall 1 1 DirRight] [] 1 true.

(** * Properties *)

(** Boolean tests on integers, read as propositions. *)
Ltac zbool :=
  repeat match goal with
  | H : _ && _ = true |- _ => apply andb_prop in H as [? ?]
  | H : _ && _ = false |- _ => apply andb_false_iff in H as [?|?]
  | H : _ || _ = true |- _ => apply orb_prop in H as [?|?]
  | H : _ || _ = false |- _ => apply orb_false_elim in H as [? ?]
  | H : negb _ = true |- _ => apply negb_true_iff in H
  | H : negb _ = false |- _ => apply negb_false_iff in H
  | H : (_ <=? _) = true |- _ => apply Z.leb_le in H
  | H : (_ <=? _) = false |- _ => apply Z.leb_gt in H
  | H : (_ <? _) = true |- _ => apply Z.ltb_lt in H
  | H : (_ <? _) = false |- _ => apply Z.ltb_ge in H
  | H : (_ =? _) = true |- _ => apply Z.eqb_eq in H
  | H : (_ =? _) = false |- _ => apply Z.eqb_neq in H
  end.

(** ** Keys *)

(** The printed form of an integer has no comma, so the keys built from
    integers and commas determine the integers: a set of cell keys is a set
    of coordinate pairs, and two walls with the same key are the same. *)
Lemma pretty_N_go_commaFree (x : N) : forall s,
  commaFree s -> commaFree (pretty_N_go x s).
Proof.
  induction (N.lt_wf_0 x) as [x _ IH]. intros s Hs.
  destruct (decide (x = 0%N)) as [->|Hx]; [by rewrite pretty_N_go_0|].
  rewrite pretty_N_go_step by lia. apply IH.
  - apply N.div_lt; lia.
  - split; [|done]. unfold pretty_N_char. by repeat case_match.
Qed.

Lemma pretty_Z_commaFree (z : Z) : commaFree (pretty z).
Proof.
  assert (HN : forall n : N, commaFree (pretty n)).
  { intros n. unfold pretty, pretty_N. case_decide; [by split|].
    by apply pretty_N_go_commaFree. }
  destruct z as [|q|q]; unfold pretty, pretty_Z.
  - by split.
  - apply HN.
  - split; [done|apply HN].
Qed.

Lemma comma_split a : forall a' b b',
  commaFree a -> commaFree a' ->
  a +:+ "," +:+ b = a' +:+ "," +:+ b' -> a = a' /\ b = b'.
Proof.
  induction a as [|c a IH]; intros [|c' a'] b b' Ha Ha' Heq; cbn in *.
  - by injection Heq.
  - injection Heq as <- _. by destruct Ha'.
  - injection Heq as -> _. by destruct Ha.
  - injection Heq as -> Heq. destruct Ha, Ha'.
    apply IH in Heq as [-> ->]; done.
Qed.

Lemma cellKeyString_inj p q : cellKeyString p = cellKeyString q -> p = q.
Proof.
  unfold cellKeyString. intros Heq.
  apply comma_split in Heq as [Hx Hy]; [|apply pretty_Z_commaFree..].
  apply (inj pretty) in Hx, Hy. destruct p, q; cbn in *; congruence.
Qed.

Lemma wallKeyOf_inj x y d x' y' d' :
  wallKeyOf x y d = wallKeyOf x' y' d' -> x = x' /\ y = y' /\ d = d'.
Proof.
  unfold wallKeyOf. intros Heq.
  apply comma_split in Heq as [Hx Heq]; [|apply pretty_Z_commaFree..].
  apply comma_split in Heq as [Hy Hd]; [|apply pretty_Z_commaFree..].
  apply (inj pretty) in Hx, Hy. done.
Qed.

Lemma wallKey_inj w w' : wallKey w = wallKey w' -> w = w'.
Proof.
  unfold wallKey. intros (Hx & Hy & Hd)%wallKeyOf_inj.
  destruct w as [x y d], w' as [x' y' d']; cbn in *. subst.
  f_equal. by destruct d, d'.
Qed.

(** ** The connectivity check *)

Section Connectivity.
Variable st : State.

Lemma cellKey_inj c c' : cellKey c = cellKey c' -> c = c'.
Proof. destruct c, c'; unfold cellKey; simpl; congruence. Qed.

Lemma elem_of_gridCells c : cellKey c ∈ (gridCells st) <-> inGrid st c.
Proof.
  unfold gridCells, inGrid, cellKey.
  rewrite elem_of_list_to_set, list_elem_of_bind. split.
  - intros (x & Hin & Hx). apply list_elem_of_bind in Hin as (y & Hin & Hy).
    apply list_elem_of_singleton in Hin. apply elem_of_seqZ in Hx, Hy.
    inversion Hin; subst. lia.
  - intros [Hx Hy]. exists (px c). split; [|apply elem_of_seqZ; lia].
    apply list_elem_of_bind. exists (py c).
    split; [apply list_elem_of_singleton; done|apply elem_of_seqZ; lia].
Qed.

Lemma gridCells_size : (size (gridCells st) <= Z.to_nat (gridSize st * gridSize st))%nat.
Proof.
  unfold gridCells. set (n := gridSize st).
  assert (Hlen : forall l : list Z,
    length (x ← l; y ← seqZ 0 n; [(x, y)]) = (length l * Z.to_nat n)%nat).
  { induction l as [|a l IH]; csimpl; [done|].
    rewrite length_app, IH. f_equal.
    generalize (seqZ 0 n) (length_seqZ 0 n). intros k <-.
    induction k; csimpl; [done|]. by f_equal. }
  assert (Hle : forall l : list (Z * Z),
    (size (list_to_set (C:=gset (Z * Z)) l) <= length l)%nat).
  { induction l as [|a l IH].
    - rewrite list_to_set_nil, size_empty. done.
    - rewrite list_to_set_cons, size_union_alt, size_singleton. simpl.
      assert (Hs : (size (list_to_set (C:=gset (Z * Z)) l ∖ {[a]})
                    <= size (list_to_set (C:=gset (Z * Z)) l))%nat)
        by (apply subseteq_size; set_solver).
      lia. }
  etrans; [apply Hle|]. rewrite Hlen, length_seqZ.
  destruct (decide (0 <= n)).
  - rewrite Z2Nat.inj_mul by lia. done.
  - replace (Z.to_nat n) with 0%nat by lia. lia.
Qed.

(** *** One pass over [dirs] *)

Lemma visitNeighbor_spec curr acc d :
  let acc' := visitNeighbor st curr acc d in
  exists news,
    acc'.1 = acc.1 ++ news /\
    acc'.2 = list_to_set (cellKey <$> news) ∪ acc.2 /\
    (length news + unvisited st acc'.2 <= unvisited st acc.2)%nat /\
    (inGrid st (moveBy curr d) ->
     hasWall st (px curr) (py curr) (ddir d) = false ->
     cellKey (moveBy curr d) ∈ acc'.2).
Proof.
  unfold visitNeighbor, inGrid, moveBy; simpl.
  destruct (_ && _) eqn:Hb.
  - destruct (hasWall _ _ _ _) eqn:Hw; simpl.
    + exists []. rewrite app_nil_r. simpl. split_and!; [done|set_solver|lia|done].
    + case_bool_decide as Hin; simpl.
      * exists []. rewrite app_nil_r. simpl. split_and!; [done|set_solver|lia|done].
      * exists [mkPos (px curr + dx d) (py curr + dy d)]. simpl.
        split_and!; [done|set_solver| |intros; set_solver].
        unfold unvisited.
        assert (Hg : cellKey (mkPos (px curr + dx d) (py curr + dy d)) ∈ (gridCells st)).
        { apply elem_of_gridCells. unfold inGrid. cbn [px py]. zbool. lia. }
        unfold cellKey in Hg. cbn [px py] in Hg.
        set (k := (px curr + dx d, py curr + dy d)) in *.
        assert (Hs : (size ((gridCells st) ∖ ({[k]} ∪ acc.2))
                      < size ((gridCells st) ∖ acc.2))%nat)
          by (apply subset_size; set_solver).
        lia.
  - exists []. rewrite app_nil_r. simpl.
    split_and!; [done|set_solver|lia|intros; zbool; lia].
Qed.

Lemma fold_visit_spec curr ds : forall acc,
  let acc' := fold_left (visitNeighbor st curr) ds acc in
  exists news,
    acc'.1 = acc.1 ++ news /\
    acc'.2 = list_to_set (cellKey <$> news) ∪ acc.2 /\
    (length news + unvisited st acc'.2 <= unvisited st acc.2)%nat /\
    (forall d, d ∈ ds -> inGrid st (moveBy curr d) ->
       hasWall st (px curr) (py curr) (ddir d) = false ->
       cellKey (moveBy curr d) ∈ acc'.2).
Proof.
  induction ds as [|d ds IH]; intros acc; simpl.
  - exists []. rewrite app_nil_r. simpl.
    split_and!; [done|set_solver|lia|]. intros d Hd. inversion Hd.
  - destruct (visitNeighbor_spec curr acc d) as (n1 & Hq1 & Hv1 & Hm1 & Hc1).
    destruct (IH (visitNeighbor st curr acc d)) as (n2 & Hq2 & Hv2 & Hm2 & Hc2).
    exists (n1 ++ n2). split_and!.
    + rewrite Hq2, Hq1. by rewrite (assoc_L (++)).
    + rewrite Hv2, Hv1, fmap_app, list_to_set_app_L. set_solver.
    + rewrite length_app. lia.
    + intros d' Hd' Hg Hw. apply elem_of_cons in Hd' as [->|Hd'].
      * rewrite Hv2. apply elem_of_union_r. by apply Hc1.
      * by apply Hc2.
Qed.

(** *** Termination *)

Lemma hasPathLoop_enough end_ : forall fuel queue visited,
  (length queue + unvisited st visited < fuel)%nat ->
  is_Some (hasPathLoop fuel st end_ queue visited).
Proof.
  induction fuel as [|fuel IH]; intros queue visited Hlt; [lia|].
  cbn [hasPathLoop]. destruct queue as [|curr rest]; [by eexists|].
  destruct (_ && _); [by eexists|].
  destruct (fold_visit_spec curr dirs (rest, visited)) as (news & Hq & Hv & Hm & _).
  apply IH. rewrite Hq. cbn [fst snd length] in *. rewrite length_app. lia.
Qed.

Lemma hasPathLoop_more_fuel end_ b : forall fuel fuel' queue visited,
  hasPathLoop fuel st end_ queue visited = Some b ->
  (fuel <= fuel')%nat ->
  hasPathLoop fuel' st end_ queue visited = Some b.
Proof.
  induction fuel as [|fuel IH]; intros fuel' queue visited Hr Hle; [done|].
  destruct fuel' as [|fuel']; [lia|]. cbn [hasPathLoop] in *.
  destruct queue as [|curr rest]; [done|].
  destruct (_ && _); [done|]. apply IH; [done|lia].
Qed.

Lemma hasPathFuel_total start end_ :
  hasPathFuel (loopBound st) st start end_ = Some (hasPath st start end_).
Proof.
  unfold hasPath.
  destruct (hasPathLoop_enough end_ (loopBound st) [start] {[cellKey start]})
    as [b Hb]; [|unfold hasPathFuel; by rewrite Hb].
  unfold loopBound, unvisited. simpl.
  pose proof gridCells_size.
  assert (Hs : (size ((gridCells st) ∖ {[cellKey start]}) <= size (gridCells st))%nat)
    by (apply subseteq_size; set_solver).
  lia.
Qed.

(** *** Completeness: a connected target is found *)

Lemma hasPathLoop_false end_ : forall fuel queue visited,
  bfsInv st end_ queue visited ->
  hasPathLoop fuel st end_ queue visited = Some false ->
  exists visited', visited ⊆ visited' /\
    forall c, cellKey c ∈ visited' -> settled st end_ visited' c.
Proof.
  induction fuel as [|fuel IH]; intros queue visited [Hq Hv] Hr; [done|].
  cbn [hasPathLoop] in Hr. destruct queue as [|curr rest].
  - exists visited. split; [done|]. intros c Hc.
    destruct (Hv c Hc) as [Hin|]; [inversion Hin|done].
  - destruct (_ && _) eqn:Hend; [done|].
    destruct (fold_visit_spec curr dirs (rest, visited)) as (news & Hq' & Hv' & _ & Hc').
    cbn [fst snd] in Hq', Hv', Hc'. rewrite Hq' in Hr.
    apply IH in Hr as (v' & Hsub & Hsettled).
    + exists v'. split; [|done]. rewrite Hv' in Hsub. set_solver.
    + rewrite Hv'. split.
      * intros c [Hc|Hc]%elem_of_app.
        -- apply elem_of_union_r, Hq. by right.
        -- apply elem_of_union_l, elem_of_list_to_set, list_elem_of_fmap. eauto.
      * intros c [Hc|Hc]%elem_of_union.
        -- apply elem_of_list_to_set, list_elem_of_fmap in Hc as (c0 & Hk & Hc0).
           apply cellKey_inj in Hk as ->. left. apply elem_of_app. by right.
        -- destruct (Hv c Hc) as [[->|Hin]%elem_of_cons|[Hne Hcl]].
           ++ right. split.
              ** intros ->. rewrite !Z.eqb_refl in Hend. done.
              ** intros c' (d & Hd & -> & Hg & Hw). rewrite <- Hv'. by apply Hc'.
           ++ left. apply elem_of_app. by left.
           ++ right. split; [done|]. intros c' Hs. apply elem_of_union_r. by apply Hcl.
Qed.

Lemma hasPath_complete start end_ :
  connected st start end_ -> hasPath st start end_ = true.
Proof.
  intros Hconn. pose proof (hasPathFuel_total start end_) as Hr.
  destruct (hasPath st start end_); [done|]. exfalso.
  apply hasPathLoop_false in Hr as (v' & Hsub & Hsettled).
  - assert (Hall : forall c, connected st start c -> cellKey c ∈ v').
    { apply (rtc_ind_r (fun c => cellKey c ∈ v')).
      - set_solver.
      - intros c c' _ Hs IHc. by apply (Hsettled c IHc). }
    destruct (Hsettled end_ (Hall _ Hconn)) as [Hne _]. done.
  - split.
    + intros c ->%list_elem_of_singleton. set_solver.
    + intros c ->%elem_of_singleton%cellKey_inj. left. by left.
Qed.

Lemma hasPath_same p : hasPath st p p = true.
Proof.
  unfold hasPath, hasPathFuel, loopBound.
  rewrite Nat.add_comm. cbn [Nat.add hasPathLoop]. by rewrite !Z.eqb_refl.
Qed.
End Connectivity.

(** *** The result only depends on the grid size and the walls *)

Lemma hasWall_ext st st' x y d :
  walls st = walls st' -> hasWall st x y d = hasWall st' x y d.
Proof. intros Hw. unfold hasWall, wallAt. by rewrite Hw. Qed.

Lemma hasPathLoop_ext st st' end_ :
  gridSize st = gridSize st' -> walls st = walls st' ->
  forall fuel queue visited,
    hasPathLoop fuel st end_ queue visited
    = hasPathLoop fuel st' end_ queue visited.
Proof.
  intros Hg Hw. induction fuel as [|fuel IH]; intros queue visited; [done|].
  cbn [hasPathLoop]. destruct queue as [|curr rest]; [done|].
  destruct (_ && _); [done|].
  assert (Hfold : forall ds acc,
    fold_left (visitNeighbor st curr) ds acc
    = fold_left (visitNeighbor st' curr) ds acc).
  { induction ds as [|d ds IHds]; intros acc; [done|]. cbn [fold_left].
    rewrite IHds. f_equal. unfold visitNeighbor.
    by rewrite Hg, (hasWall_ext st st'). }
  rewrite Hfold. apply IH.
Qed.

Lemma hasPath_ext st st' a b :
  gridSize st = gridSize st' -> walls st = walls st' ->
  hasPath st a b = hasPath st' a b.
Proof.
  intros Hg Hw. unfold hasPath, hasPathFuel, loopBound.
  by rewrite Hg, (hasPathLoop_ext st st').
Qed.

Lemma isSolvable_ext st st' :
  gridSize st = gridSize st' -> walls st = walls st' ->
  avatarPos st = avatarPos st' -> keyPos st = keyPos st' ->
  doorPos st = doorPos st' ->
  isSolvable st = isSolvable st'.
Proof.
  intros Hg Hw Ha Hk Hd. unfold isSolvable.
  by rewrite Ha, Hk, Hd, !(hasPath_ext st st').
Qed.

(** *** A grid without walls is connected *)

Section OpenGrid.
Variable st : State.
Hypothesis no_walls : walls st = [].

Lemma open_hasWall x y d : hasWall st x y d = false.
Proof. unfold hasWall, wallAt. rewrite no_walls. by destruct d. Qed.

(** [n] steps in one direction stay in the grid when both ends do. *)
Lemma open_walk d : d ∈ dirs -> forall (n : nat) c,
  inGrid st c ->
  inGrid st (mkPos (px c + Z.of_nat n * dx d) (py c + Z.of_nat n * dy d)) ->
  connected st c (mkPos (px c + Z.of_nat n * dx d) (py c + Z.of_nat n * dy d)).
Proof.
  intros Hd. induction n as [|n IH]; intros c Hc Hn.
  - replace (mkPos _ _) with c; [apply rtc_refl|].
    destruct c; cbn [px py]. f_equal; lia.
  - assert (Hc1 : inGrid st (moveBy c d)).
    { unfold dirs in Hd. unfold inGrid, moveBy in *. cbn [px py] in *.
      repeat (apply elem_of_cons in Hd as [->|Hd]); [..|inversion Hd];
        cbn [dx dy] in *; lia. }
    apply rtc_l with (moveBy c d).
    + exists d. split_and!; [done|done|done|apply open_hasWall].
    + replace (mkPos _ _) with
        (mkPos (px (moveBy c d) + Z.of_nat n * dx d)
               (py (moveBy c d) + Z.of_nat n * dy d)).
      * apply IH; [done|]. unfold moveBy in *. cbn [px py] in *.
        replace (px c + dx d + Z.of_nat n * dx d)
          with (px c + Z.of_nat (S n) * dx d) by lia.
        replace (py c + dy d + Z.of_nat n * dy d)
          with (py c + Z.of_nat (S n) * dy d) by lia.
        done.
      * unfold moveBy. cbn [px py]. f_equal; lia.
Qed.

Lemma open_row x x' y :
  inGrid st (mkPos x y) -> inGrid st (mkPos x' y) ->
  connected st (mkPos x y) (mkPos x' y).
Proof.
  intros Ha Hb. destruct (decide (x <= x')).
  - pose proof (open_walk (mkDelta 1 0 DirRight)) as Hw.
    specialize (Hw ltac:(unfold dirs; set_solver) (Z.to_nat (x' - x)) (mkPos x y) Ha).
    cbn [px py dx dy] in Hw.
    replace (x + Z.of_nat (Z.to_nat (x' - x)) * 1) with x' in Hw by lia.
    replace (y + Z.of_nat (Z.to_nat (x' - x)) * 0) with y in Hw by lia. auto.
  - pose proof (open_walk (mkDelta (-1) 0 DirLeft)) as Hw.
    specialize (Hw ltac:(unfold dirs; set_solver) (Z.to_nat (x - x')) (mkPos x y) Ha).
    cbn [px py dx dy] in Hw.
    replace (x + Z.of_nat (Z.to_nat (x - x')) * -1) with x' in Hw by lia.
    replace (y + Z.of_nat (Z.to_nat (x - x')) * 0) with y in Hw by lia. auto.
Qed.

Lemma open_column x y y' :
  inGrid st (mkPos x y) -> inGrid st (mkPos x y') ->
  connected st (mkPos x y) (mkPos x y').
Proof.
  intros Ha Hb. destruct (decide (y <= y')).
  - pose proof (open_walk (mkDelta 0 1 DirBottom)) as Hw.
    specialize (Hw ltac:(unfold dirs; set_solver) (Z.to_nat (y' - y)) (mkPos x y) Ha).
    cbn [px py dx dy] in Hw.
    replace (y + Z.of_nat (Z.to_nat (y' - y)) * 1) with y' in Hw by lia.
    replace (x + Z.of_nat (Z.to_nat (y' - y)) * 0) with x in Hw by lia. auto.
  - pose proof (open_walk (mkDelta 0 (-1) DirTop)) as Hw.
    specialize (Hw ltac:(unfold dirs; set_solver) (Z.to_nat (y - y')) (mkPos x y) Ha).
    cbn [px py dx dy] in Hw.
    replace (y + Z.of_nat (Z.to_nat (y - y')) * -1) with y' in Hw by lia.
    replace (x + Z.of_nat (Z.to_nat (y - y')) * 0) with x in Hw by lia. auto.
Qed.

Lemma open_connected a b : inGrid st a -> inGrid st b -> connected st a b.
Proof.
  intros Ha Hb. destruct a as [x y], b as [x' y'].
  assert (Hmid : inGrid st (mkPos x' y)).
  { unfold inGrid in *. cbn [px py] in *. lia. }
  etrans; [by apply open_row|by apply open_column].
Qed.

Lemma open_hasPath a b : inGrid st a -> inGrid st b -> hasPath st a b = true.
Proof. intros Ha Hb. by apply hasPath_complete, open_connected. Qed.
End OpenGrid.

(** ** The generator *)

Lemma randomIndex_range r size :
  (0 <= r)%Q -> (r < 1)%Q -> 0 < size -> 0 <= randomIndex r size < size.
Proof.
  intros H0 H1 Hs. unfold randomIndex.
  assert (Hpos : (0 < inject_Z size)%Q).
  { change (inject_Z 0 < inject_Z size)%Q. by rewrite <- Zlt_Qlt. }
  split.
  - change 0 with (Qfloor (inject_Z 0)). apply Qfloor_resp_le.
    apply Qmult_le_0_compat; [done|]. by apply Qlt_le_weak.
  - rewrite Zlt_Qlt. eapply Qle_lt_trans; [apply Qfloor_le|].
    eapply Qlt_le_trans; [apply Qmult_lt_compat_r; [done|apply H1]|].
    rewrite Qmult_1_l. apply Qle_refl.
Qed.

Lemma samePos_false p q : samePos p q = false -> p <> q.
Proof.
  unfold samePos. intros H ->. by rewrite !Z.eqb_refl in H.
Qed.

Lemma set_keyPos_twice k k' st :
  set_keyPos k (set_keyPos k' st) = set_keyPos k st.
Proof. done. Qed.

(** A successful key placement only writes [keyPos]; the key is neither
    the start nor the door, and lies in the grid when the draws are in
    [[0,1)]. *)
Lemma pickKey_spec size : forall rs st st',
  pickKey size rs st = Some st' ->
  st' = set_keyPos (keyPos st') st /\
  keyPos st' <> avatarPos st /\
  keyPos st' <> doorPos st /\
  (Forall (fun r => (0 <= r)%Q /\ (r < 1)%Q) rs -> 0 < size ->
   0 <= px (keyPos st') < size /\ 0 <= py (keyPos st') < size).
Proof.
  intros rs. remember (length rs) as n eqn:Hn. revert rs Hn.
  induction n as [n IH] using lt_wf_ind. intros rs Hn st st' Hp.
  destruct rs as [|rx [|ry rest]]; [done|done|].
  cbn [pickKey] in Hp. destruct (_ || _) eqn:Hbad.
  - apply IH with (m := length rest) in Hp; [|simpl in Hn; lia|done].
    destruct Hp as (Heq & Ha & Hd & Hr). rewrite set_keyPos_twice in Heq.
    split_and!; [done|done|done|].
    intros Hok. apply Hr. by do 2 apply Forall_inv_tail in Hok.
  - injection Hp as <-. apply orb_false_elim in Hbad as [Ha Hd].
    split_and!; [done|by apply samePos_false in Ha|by apply samePos_false in Hd|].
    intros Hok Hs. cbn [set_keyPos keyPos px py].
    inversion Hok as [|? ? [? ?] Hok']; subst.
    inversion Hok' as [|? ? [? ?] _]; subst.
    split; by apply randomIndex_range.
Qed.

Lemma set_walls_pop w st :
  let st1 := set_walls (walls st ++ [w]) st in
  set_walls (removelast (walls st1)) st1 = st.
Proof.
  destruct st. unfold set_walls. cbn. by rewrite removelast_last.
Qed.

(** The loop appends to [walls] a sublist of the candidates, no longer
    than what is missing from the target. *)
Lemma addWalls_spec targetWalls : forall cands addedWalls st,
  exists kept,
    addWalls targetWalls cands addedWalls st = set_walls (walls st ++ kept) st /\
    kept `sublist_of` cands /\
    Z.of_nat (length kept) <= Z.max 0 (targetWalls - addedWalls).
Proof.
  induction cands as [|w rest IH]; intros a st; cbn [addWalls].
  - exists []. rewrite app_nil_r. destruct st. split_and!; [done|done|simpl; lia].
  - destruct (targetWalls <=? a) eqn:Hbrk.
    + exists []. rewrite app_nil_r. destruct st.
      split_and!; [done|apply sublist_nil_l|simpl; lia].
    + apply Z.leb_gt in Hbrk. destruct (negb _).
      * rewrite set_walls_pop. destruct (IH a st) as (kept & -> & Hsub & Hlen).
        exists kept. split_and!; [done|by apply sublist_cons|done].
      * destruct (IH (a + 1) (set_walls (walls st ++ [w]) st))
          as (kept & -> & Hsub & Hlen).
        exists (w :: kept). split_and!.
        -- destruct st. unfold set_walls. cbn. by rewrite <- (assoc_L (++)).
        -- by apply sublist_skip.
        -- cbn [length]. lia.
Qed.

Lemma addWalls_solvable targetWalls : forall cands addedWalls st,
  isSolvable st = true ->
  isSolvable (addWalls targetWalls cands addedWalls st) = true.
Proof.
  induction cands as [|w rest IH]; intros a st Hs; cbn [addWalls]; [done|].
  destruct (targetWalls <=? a); [done|].
  destruct (isSolvable (set_walls _ _)) eqn:Hs1; cbn [negb].
  - by apply IH.
  - rewrite set_walls_pop. by apply IH.
Qed.

(** What a generated level looks like. *)
Lemma generateLevelWith_spec targetWalls rng st st' :
  generateLevelWith targetWalls rng st = Some st' ->
  exists key kept,
    st' = mkState (difficulty st) (mode st) (gridSize st)
            (mkPos 0 (gridSize st - 1)) key (mkPos (gridSize st - 1) 0)
            (hasKey st) (attempts st) kept (revealedWalls st)
            (currentLevel st) (isPlaying st) /\
    kept `sublist_of` shuffle rng (possibleWalls (gridSize st)) /\
    Z.of_nat (length kept) <= Z.max 0 targetWalls /\
    key <> mkPos 0 (gridSize st - 1) /\
    key <> mkPos (gridSize st - 1) 0 /\
    (rng_draws_ok rng -> 0 < gridSize st ->
     0 <= px key < gridSize st /\ 0 <= py key < gridSize st).
Proof.
  unfold generateLevelWith. intros Hg.
  destruct (pickKey _ _ _) as [st1|] eqn:Hk; [|done].
  cbn in Hg. injection Hg as <-.
  apply pickKey_spec in Hk as (Heq & Ha & Hd & Hr).
  destruct (addWalls_spec targetWalls (shuffle rng (possibleWalls (gridSize st)))
              0 (set_walls [] st1)) as (kept & -> & Hsub & Hlen).
  exists (keyPos st1), kept. rewrite Z.sub_0_r in Hlen.
  split_and!; [|done|done|done|done|done].
  rewrite Heq. done.
Qed.

Lemma generateLevelWith_solvable targetWalls rng st st' :
  rng_draws_ok rng -> 1 <= gridSize st ->
  generateLevelWith targetWalls rng st = Some st' ->
  isSolvable st' = true.
Proof.
  unfold generateLevelWith. intros Hok Hn Hg.
  destruct (pickKey _ _ _) as [st1|] eqn:Hk; [|done].
  cbn in Hg. injection Hg as <-.
  apply pickKey_spec in Hk as (Heq & _ & _ & Hr).
  destruct (Hr Hok ltac:(lia)) as [Hx Hy].
  apply addWalls_solvable. unfold isSolvable.
  set (s := set_walls [] st1).
  assert (Hgs : gridSize s = gridSize st) by (subst s; rewrite Heq; done).
  assert (Hav : avatarPos s = mkPos 0 (gridSize st - 1))
    by (subst s; rewrite Heq; done).
  assert (Hdo : doorPos s = mkPos (gridSize st - 1) 0)
    by (subst s; rewrite Heq; done).
  assert (Hke : keyPos s = keyPos st1) by done.
  rewrite Hav, Hdo, Hke.
  rewrite !open_hasPath; try done;
    unfold inGrid; rewrite Hgs; cbn [px py]; lia.
Qed.

Lemma isSolvable_true st :
  isSolvable st = true ->
  hasPath st (avatarPos st) (keyPos st) = true /\
  hasPath st (keyPos st) (doorPos st) = true.
Proof.
  unfold isSolvable. destruct (hasPath st (avatarPos st) (keyPos st)); [done|done].
Qed.

(** *** The candidate walls *)

Lemma elem_of_bottomWalls size w :
  w ∈ bottomWalls size <->
  wdir w = DirBottom /\ (0 <= wx w < size) /\ (0 <= wy w < size - 1).
Proof.
  unfold bottomWalls. rewrite list_elem_of_bind. split.
  - intros (y & (x & ->%list_elem_of_singleton & Hx%elem_of_seqZ)%list_elem_of_bind
              & Hy%elem_of_seqZ).
    cbn [wx wy wdir]. split; [done|lia].
  - intros (Hd & Hx & Hy). exists (wy w). split; [|apply elem_of_seqZ; lia].
    apply list_elem_of_bind. exists (wx w). split; [|apply elem_of_seqZ; lia].
    apply list_elem_of_singleton. destruct w; cbn in *. by subst.
Qed.

Lemma elem_of_rightWalls size w :
  w ∈ rightWalls size <->
  wdir w = DirRight /\ (0 <= wx w < size - 1) /\ (0 <= wy w < size).
Proof.
  unfold rightWalls. rewrite list_elem_of_bind. split.
  - intros (x & (y & ->%list_elem_of_singleton & Hy%elem_of_seqZ)%list_elem_of_bind
              & Hx%elem_of_seqZ).
    cbn [wx wy wdir]. split; [done|lia].
  - intros (Hd & Hx & Hy). exists (wx w). split; [|apply elem_of_seqZ; lia].
    apply list_elem_of_bind. exists (wy w). split; [|apply elem_of_seqZ; lia].
    apply list_elem_of_singleton. destruct w; cbn in *. by subst.
Qed.

Lemma elem_of_possibleWalls size w :
  w ∈ possibleWalls size <-> wallInBounds size w.
Proof.
  unfold possibleWalls, wallInBounds.
  rewrite elem_of_app, elem_of_bottomWalls, elem_of_rightWalls.
  destruct (wdir w); naive_solver.
Qed.

Lemma NoDup_possibleWalls size : NoDup (possibleWalls size).
Proof.
  unfold possibleWalls. apply NoDup_app. split_and!.
  - unfold bottomWalls. apply NoDup_bind; [| |apply NoDup_seqZ].
    + intros y1 y2 w _ _
        (x1 & ->%list_elem_of_singleton & _)%list_elem_of_bind
        (x2 & Heq%list_elem_of_singleton & _)%list_elem_of_bind.
      congruence.
    + intros y _. apply NoDup_bind; [| |apply NoDup_seqZ].
      * intros x1 x2 w _ _ ->%list_elem_of_singleton Heq%list_elem_of_singleton.
        congruence.
      * intros x _. apply NoDup_singleton.
  - intros w (Hb & _)%elem_of_bottomWalls (Hr & _)%elem_of_rightWalls. congruence.
  - unfold rightWalls. apply NoDup_bind; [| |apply NoDup_seqZ].
    + intros x1 x2 w _ _
        (y1 & ->%list_elem_of_singleton & _)%list_elem_of_bind
        (y2 & Heq%list_elem_of_singleton & _)%list_elem_of_bind.
      congruence.
    + intros x _. apply NoDup_bind; [| |apply NoDup_seqZ].
      * intros y1 y2 w _ _ ->%list_elem_of_singleton Heq%list_elem_of_singleton.
        congruence.
      * intros y _. apply NoDup_singleton.
Qed.

Lemma length_possibleWalls size :
  0 <= size -> Z.of_nat (length (possibleWalls size)) = 2 * size * (size - 1).
Proof.
  intros Hs.
  assert (Hlen : forall (f : Z -> Z -> Wall) (l k : list Z),
    length (a ← l; b ← k; [f a b]) = (length l * length k)%nat).
  { intros f l k. induction l as [|a l IH]; csimpl; [done|].
    rewrite length_app, IH. f_equal. clear IH.
    induction k as [|b k IHk]; csimpl; [done|]. by rewrite IHk. }
  unfold possibleWalls, bottomWalls, rightWalls.
  rewrite length_app.
  rewrite (Hlen (fun y x => mkWall x y DirBottom)).
  rewrite (Hlen (fun x y => mkWall x y DirRight)).
  rewrite !length_seqZ. nia.
Qed.

(** *** The 3 x 3 grid *)







(** ** The navigation engine *)

Lemma moveAvatar_outside dir st :
  ~ inGrid st (neighbor (avatarPos st) dir) -> moveAvatar dir st = (st, []).
Proof.
  intros Hout. unfold moveAvatar.
  destruct (_ || _) eqn:Hb; [done|]. exfalso. apply Hout.
  unfold inGrid, neighbor. cbn [px py]. zbool. lia.
Qed.

Lemma moveAvatar_collision dir st :
  inGrid st (neighbor (avatarPos st) dir) ->
  hasWall st (px (avatarPos st)) (py (avatarPos st)) dir = true ->
  moveAvatar dir st
  = handleCollision (px (avatarPos st)) (py (avatarPos st)) dir st.
Proof.
  intros Hin Hw. unfold moveAvatar. rewrite Hw.
  destruct (_ || _) eqn:Hb; [|done]. exfalso.
  unfold inGrid, neighbor in Hin. cbn [px py] in Hin. zbool; lia.
Qed.

Lemma moveAvatar_open dir st :
  inGrid st (neighbor (avatarPos st) dir) ->
  hasWall st (px (avatarPos st)) (py (avatarPos st)) dir = false ->
  moveAvatar dir st
  = let '(st', ev) :=
      checkEntityCollision (set_avatarPos (neighbor (avatarPos st) dir) st) in
    (st', ev ++ [RenderGrid]).
Proof.
  intros Hin Hw. unfold moveAvatar. rewrite Hw.
  destruct (_ || _) eqn:Hb; [|done]. exfalso.
  unfold inGrid, neighbor in Hin. cbn [px py] in Hin. zbool; lia.
Qed.

(** The three ways a move request can go. *)
Lemma moveAvatar_cases dir st :
  moveAvatar dir st = (st, []) \/
  (hasWall st (px (avatarPos st)) (py (avatarPos st)) dir = true /\
   moveAvatar dir st
   = handleCollision (px (avatarPos st)) (py (avatarPos st)) dir st) \/
  moveAvatar dir st
  = (let '(st', ev) :=
       checkEntityCollision (set_avatarPos (neighbor (avatarPos st) dir) st) in
     (st', ev ++ [RenderGrid])).
Proof.
  unfold moveAvatar. destruct (_ || _); [by left|].
  destruct (hasWall _ _ _ _); [right; left; done|right; right; done].
Qed.

(** [checkEntityCollision] only writes [hasKey] and [isPlaying]. *)
Lemma checkEntityCollision_spec st :
  let st' := (checkEntityCollision st).1 in
  let onKey := samePos (avatarPos st) (keyPos st) in
  let onDoor := samePos (avatarPos st) (doorPos st) in
  st' = set_isPlaying (if onDoor && hasKey st' then false else isPlaying st)
          (set_hasKey (hasKey st || onKey) st).
Proof.
  unfold checkEntityCollision, endGame, samePos. destruct st as [? ? ? a k d h ? ? ? ? p].
  cbn -[Z.eqb].
  destruct h; cbn -[Z.eqb];
    destruct (px a =? px k), (py a =? py k); cbn -[Z.eqb];
    destruct (px a =? px d), (py a =? py d); cbn; done.
Qed.

(** [handleCollision] writes [attempts], [revealedWalls], [avatarPos] and,
    in challenge mode, [isPlaying]. *)
Lemma handleCollision_spec x y dir st :
  let st' := (handleCollision x y dir st).1 in
  let k := collisionKey x y dir in
  st' = set_isPlaying
          (match mode st with CHALLENGE => false | PRACTICE => isPlaying st end)
          (set_avatarPos (mkPos 0 (gridSize st - 1))
            (set_revealedWalls
               (if includes k (revealedWalls st) then revealedWalls st
                else revealedWalls st ++ [k])
               (set_attempts (attempts st + 1) st))).
Proof.
  unfold handleCollision, endGame. destruct st as [? m ? ? ? ? ? ? ? r ? ?].
  cbn [set_attempts revealedWalls attempts mode gridSize isPlaying].
  destruct (includes _ r); cbn [negb]; destruct m; done.
Qed.

Lemma handleCollision_challenge x y dir st :
  mode st = CHALLENGE ->
  let '(st', ev) := handleCollision x y dir st in
  isPlaying st' = false /\ AlertGameOver ∈ ev.
Proof.
  intros Hm. unfold handleCollision. cbn [mode set_avatarPos]. 
  destruct (negb _); cbn [mode set_revealedWalls set_attempts]; rewrite Hm;
    cbn; (split; [done|set_solver]).
Qed.

(** The wall found by [hasWall] has the key recorded by [handleCollision]. *)
Lemma hasWall_collisionKey st x y dir :
  hasWall st x y dir = true ->
  exists w, w ∈ walls st /\ wallKey w = collisionKey x y dir.
Proof.
  unfold hasWall, wallAt, wallKey, collisionKey. intros Hw.
  destruct dir; apply existsb_exists in Hw as (w & Hin%list_elem_of_In & Hb);
    apply andb_prop in Hb as [Hb Hd]; apply bool_decide_eq_true in Hd;
    zbool; exists w; (split; [done|]); rewrite Hd; cbn [dirName]; congruence.
Qed.

(** Keyboard input is ignored while no level is being played. *)
Lemma handleInput_not_playing key st :
  isPlaying st = false -> handleInput key st = (st, []).
Proof. intros Hp. unfold handleInput. by rewrite Hp. Qed.

Lemma includes_spec k l : includes k l = true <-> k ∈ l.
Proof.
  unfold includes. rewrite existsb_exists. split.
  - intros (k' & Hin & ->%String.eqb_eq). by apply list_elem_of_In.
  - intros Hin. exists k. split; [by apply list_elem_of_In|apply String.eqb_refl].
Qed.

(** The state after an open move. *)
Lemma moveAvatar_open_state dir st :
  inGrid st (neighbor (avatarPos st) dir) ->
  hasWall st (px (avatarPos st)) (py (avatarPos st)) dir = false ->
  (moveAvatar dir st).1
  = (checkEntityCollision (set_avatarPos (neighbor (avatarPos st) dir) st)).1.
Proof.
  intros Hin Hw. rewrite moveAvatar_open by done.
  by destruct (checkEntityCollision _).
Qed.

(** What no move request changes, and what it can only extend. *)
Lemma moveAvatar_summary dir st :
  let st' := (moveAvatar dir st).1 in
  walls st' = walls st /\
  gridSize st' = gridSize st /\
  keyPos st' = keyPos st /\
  doorPos st' = doorPos st /\
  mode st' = mode st /\
  revealedWalls st `prefix_of` revealedWalls st' /\
  (hasKey st = true -> hasKey st' = true) /\
  (revealedSubset st -> revealedSubset st').
Proof.
  destruct (moveAvatar_cases dir st) as [Hm|[[Hw Hm]|Hm]]; rewrite Hm; clear Hm.
  - cbn [fst]. split_and!; done.
  - cbn zeta. rewrite handleCollision_spec. cbn.
    split_and!; try done.
    + destruct (includes _ _); [done|]. by apply prefix_app_r.
    + intros Hsub k. destruct (includes _ _) eqn:Hinc; [apply Hsub|].
      intros [Hk| ->%list_elem_of_singleton]%elem_of_app; [by apply Hsub|].
      by apply hasWall_collisionKey.
  - destruct (checkEntityCollision _) as [st' ev] eqn:Hc.
    pose proof (checkEntityCollision_spec
                  (set_avatarPos (neighbor (avatarPos st) dir) st)) as Hs.
    rewrite Hc in Hs. cbn [fst] in *. rewrite Hs. cbn.
    split_and!; try done. by intros ->.
Qed.

Lemma runMoves_app ds ds' st :
  runMoves (ds ++ ds') st = runMoves ds' (runMoves ds st).
Proof. unfold runMoves. by rewrite fold_left_app. Qed.

Lemma runMoves_summary : forall ds st,
  walls (runMoves ds st) = walls st /\
  revealedWalls st `prefix_of` revealedWalls (runMoves ds st) /\
  (hasKey st = true -> hasKey (runMoves ds st) = true) /\
  (revealedSubset st -> revealedSubset (runMoves ds st)).
Proof.
  induction ds as [|d ds IH]; intros st; [done|].
  change (runMoves (d :: ds) st) with (runMoves ds (moveAvatar d st).1).
  destruct (IH (moveAvatar d st).1) as (Hw & Hp & Hk & Hs).
  destruct (moveAvatar_summary d st) as (Hw1 & _ & _ & _ & _ & Hp1 & Hk1 & Hs1).
  split_and!; [congruence|by etrans|auto|auto].
Qed.

(** [startGame] resets the run state and builds the level. *)
Lemma startGame_spec reset rng st st' ev :
  startGame reset rng st = Some (st', ev) ->
  hasKey st' = false /\ attempts st' = 0 /\ revealedWalls st' = [] /\
  isPlaying st' = true /\
  exists st0, gridSize st0 = gridSize st /\ difficulty st0 = difficulty st /\
    generateLevel rng st0 = Some st'.
Proof.
  unfold startGame. intros Hs.
  destruct (generateLevel _ _) as [st1|] eqn:Hg; [|done].
  cbn in Hs. injection Hs as <- <-.
  pose proof Hg as Hg'. unfold generateLevel in Hg'.
  apply generateLevelWith_spec in Hg' as (key & kept & -> & _).
  split_and!; [by destruct reset|by destruct reset|by destruct reset
              |by destruct reset|].
  eexists. split_and!; [| |exact Hg]; by destruct reset.
Qed.

Lemma rngExample_draws_ok : rng_draws_ok rngExample.
Proof.
  unfold rng_draws_ok, rngExample. cbn [draws].
  repeat constructor; unfold Qle, Qlt; cbn; lia.
Defined.

Lemma rngExample_shuffle_ok : rng_shuffle_ok rngExample.
Proof.
  intros l. unfold rngExample. cbn [shuffle]. symmetry. apply Permutation_rev.
Defined.

Lemma startGame_example m :
  startGame true rngExample (setMode m initialState)
  = Some (levelExample m,
          [RenderGrid; UpdateStats; StartTimer;
           HideScreen ScreenStart; HideScreen ScreenSuccess]).
Proof. destruct m; vm_compute; reflexivity. Qed.

(** ** When the key placement ends *)







(** * The stated properties *)

(** C1. Every maze the generator returns, for any grid size at least 2, any
    wall target and any randomness source, has its start at (0, N-1), its
    door at (N-1, 0), and the connectivity check succeeds on the full wall
    set from the start to the key and from the key to the door. *)
Theorem generated_maze_reachable targetWalls rng st st' :
  rng_draws_ok rng -> 2 <= gridSize st ->
  generateLevelWith targetWalls rng st = Some st' ->
  avatarPos st' = mkPos 0 (gridSize st' - 1) /\
  doorPos st' = mkPos (gridSize st' - 1) 0 /\
  hasPath st' (avatarPos st') (keyPos st') = true /\
  hasPath st' (keyPos st') (doorPos st') = true.
Proof.
  intros Hok Hn Hg.
  assert (Hn1 : 1 <= gridSize st) by lia.
  pose proof (generateLevelWith_solvable _ _ _ _ Hok Hn1 Hg) as Hs.
  apply isSolvable_true in Hs as [Hk Hd].
  apply generateLevelWith_spec in Hg as (key & kept & -> & _).
  split_and!; done.
Qed.

Lemma generated_maze_reachable_witness :
  exists st',
    generateLevel rngExample initialState = Some st' /\
    hasPath st' (mkPos 0 2) (keyPos st') = true /\
    hasPath st' (keyPos st') (mkPos 2 0) = true.
Proof.
  eexists. split; [vm_compute; reflexivity|].
  refine (let H := generated_maze_reachable 2 rngExample initialState _
                     rngExample_draws_ok _ eq_refl in
          conj (proj1 (proj2 (proj2 H))) (proj2 (proj2 (proj2 H)))).
  cbn. lia.
Defined.

(** C2. A move across an edge of the wall set adds exactly 1 to the attempt
    counter and puts the avatar back at the start (0, N-1). The key of the
    crossed wall is recorded in the revealed list unless it is already
    there: if it is a member the list is left as it is, if not it is
    appended, so the list grows by one element or by none, and its members
    afterwards are the members before and that key. *)
Theorem collision_effects dir st :
  inGrid st (neighbor (avatarPos st) dir) ->
  hasWall st (px (avatarPos st)) (py (avatarPos st)) dir = true ->
  let st' := (moveAvatar dir st).1 in
  let k := collisionKey (px (avatarPos st)) (py (avatarPos st)) dir in
  attempts st' = attempts st + 1 /\
  (exists w, w ∈ walls st /\ wallKey w = k) /\
  revealedWalls st'
  = (if decide (k ∈ revealedWalls st) then revealedWalls st
     else revealedWalls st ++ [k]) /\
  (length (revealedWalls st')
   = if decide (k ∈ revealedWalls st) then length (revealedWalls st)
     else S (length (revealedWalls st))) /\
  (forall k', k' ∈ revealedWalls st' <-> k' ∈ revealedWalls st \/ k' = k) /\
  avatarPos st' = mkPos 0 (gridSize st - 1).
Proof.
  intros Hin Hw. cbn zeta. rewrite moveAvatar_collision by done.
  rewrite handleCollision_spec.
  cbn [attempts revealedWalls avatarPos set_isPlaying set_avatarPos
       set_revealedWalls set_attempts].
  set (k := collisionKey (px (avatarPos st)) (py (avatarPos st)) dir).
  assert (Hrev : (if includes k (revealedWalls st) then revealedWalls st
                  else revealedWalls st ++ [k])
                 = (if decide (k ∈ revealedWalls st) then revealedWalls st
                    else revealedWalls st ++ [k])).
  { destruct (includes k (revealedWalls st)) eqn:Hinc; case_decide; try done.
    - by apply includes_spec in Hinc.
    - apply includes_spec in H. congruence. }
  rewrite Hrev.
  split_and!; [done|by apply hasWall_collisionKey|done| | |done].
  - case_decide; [done|]. rewrite length_app. cbn [length]. lia.
  - intros k'. case_decide as Hk.
    + split; [by left|]. by intros [?| ->].
    + rewrite elem_of_app, list_elem_of_singleton. done.
Qed.

Lemma collision_effects_witness :
  let st1 := set_avatarPos (mkPos 1 2) (levelExample PRACTICE) in
  let st2 := set_avatarPos (mkPos 1 2) (moveAvatar DirRight st1).1 in
  (attempts (moveAvatar DirRight st1).1 = 1 /\
   revealedWalls (moveAvatar DirRight st1).1 = ["1,2,right"] /\
   avatarPos (moveAvatar DirRight st1).1 = mkPos 0 2) /\
  (attempts (moveAvatar DirRight st2).1 = 2 /\
   revealedWalls (moveAvatar DirRight st2).1 = ["1,2,right"] /\
   avatarPos (moveAvatar DirRight st2).1 = mkPos 0 2).
Proof.
  split.
  - refine (let H := collision_effects DirRight
                       (set_avatarPos (mkPos 1 2) (levelExample PRACTICE))
                       _ eq_refl in
            conj (proj1 H)
              (conj (proj1 (proj2 (proj2 H)))
                    (proj2 (proj2 (proj2 (proj2 (proj2 H))))))).
    unfold inGrid. cbn. lia.
  - refine (let H := collision_effects DirRight
                       (set_avatarPos (mkPos 1 2)
                          (moveAvatar DirRight
                             (set_avatarPos (mkPos 1 2)
                                (levelExample PRACTICE))).1)
                       _ eq_refl in
            conj (proj1 H)
              (conj (proj1 (proj2 (proj2 H)))
                    (proj2 (proj2 (proj2 (proj2 (proj2 H))))))).
    unfold inGrid. vm_compute. repeat split; done.
Defined.

(** C4. A collision leaves the key-collected flag as it is; once the key is
    collected the flag stays set through any sequence of move requests,
    collisions included; starting a level is what clears it. *)
Theorem key_kept_through_collisions st ds :
  hasKey st = true ->
  (forall x y dir st0, hasKey (handleCollision x y dir st0).1 = hasKey st0) /\
  hasKey (runMoves ds st) = true /\
  (forall reset rng st' ev,
     startGame reset rng st = Some (st', ev) -> hasKey st' = false).
Proof.
  intros Hk. split_and!.
  - intros x y dir st0. rewrite handleCollision_spec. done.
  - by apply runMoves_summary.
  - intros reset rng st' ev Hs. by apply startGame_spec in Hs as (? & _).
Qed.

Lemma key_kept_through_collisions_witness :
  let st := set_hasKey true (set_avatarPos (mkPos 1 1) (levelExample PRACTICE)) in
  hasKey (runMoves [DirRight; DirRight; DirRight] st) = true /\
  attempts (runMoves [DirRight; DirRight; DirRight] st) = 2.
Proof.
  split; [|vm_compute; reflexivity].
  exact (proj1 (proj2 (key_kept_through_collisions
    (set_hasKey true (set_avatarPos (mkPos 1 1) (levelExample PRACTICE)))
    [DirRight; DirRight; DirRight] eq_refl))).
Defined.



(** C6. From the start of a level on, the revealed list is empty at first,
    every key in it is the key of a wall of the maze, the maze keeps its
    walls, and no sequence of move requests removes a revealed key: the list
    after more moves extends the list before them. *)
Theorem revealed_walls_monotone reset rng st0 st1 ev :
  startGame reset rng st0 = Some (st1, ev) ->
  revealedWalls st1 = [] /\
  forall ds,
    walls (runMoves ds st1) = walls st1 /\
    revealedSubset (runMoves ds st1) /\
    forall ds', revealedWalls (runMoves ds st1)
                `prefix_of` revealedWalls (runMoves (ds ++ ds') st1).
Proof.
  intros Hs. apply startGame_spec in Hs as (_ & _ & Hr & _).
  split; [done|]. intros ds.
  destruct (runMoves_summary ds st1) as (Hw & _ & _ & Hsub).
  split_and!; [done| |].
  - apply Hsub. intros k. rewrite Hr. by intros ?%elem_of_nil.
  - intros ds'. rewrite runMoves_app. apply runMoves_summary.
Qed.

Lemma revealed_walls_monotone_witness :
  let st := runMoves [DirRight; DirRight] (levelExample PRACTICE) in
  revealedWalls st = ["1,2,right"] /\
  revealedSubset st /\
  revealedWalls st
  `prefix_of` revealedWalls (runMoves ([DirRight; DirRight] ++ [DirTop; DirRight; DirRight])
                                      (levelExample PRACTICE)).
Proof.
  split; [vm_compute; reflexivity|].
  refine (let H := proj2 (revealed_walls_monotone true rngExample
                            (setMode PRACTICE initialState)
                            (levelExample PRACTICE) _ (startGame_example PRACTICE))
                         [DirRight; DirRight] in
          conj (proj1 (proj2 H)) (proj2 (proj2 H) [DirTop; DirRight; DirRight])).
Defined.

(** C7. The walls of a generated maze are pairwise different, and so are
    their keys: no two entries denote the same canonical edge. Each wall is
    in bounds for its orientation: a right wall has 0 <= x < N-1 and
    0 <= y < N, a bottom wall 0 <= x < N and 0 <= y < N-1. *)
Theorem generated_walls_canonical targetWalls rng st st' :
  rng_shuffle_ok rng ->
  generateLevelWith targetWalls rng st = Some st' ->
  NoDup (walls st') /\
  NoDup (wallKey <$> walls st') /\
  forall w, w ∈ walls st' -> wallInBounds (gridSize st') w.
Proof.
  intros Hsh Hg.
  apply generateLevelWith_spec in Hg as (key & kept & -> & Hsub & _).
  cbn [walls gridSize]. specialize (Hsh (possibleWalls (gridSize st))).
  assert (Hnd : NoDup kept).
  { eapply sublist_NoDup; [|exact Hsub]. rewrite Hsh. apply NoDup_possibleWalls. }
  split_and!; [done| |].
  - apply NoDup_fmap_2_strong; [|done]. intros w w' _ _. apply wallKey_inj.
  - intros w Hw. apply elem_of_possibleWalls. rewrite <- Hsh.
    by eapply elem_of_sublist.
Qed.

Lemma generated_walls_canonical_witness :
  exists st',
    generateLevel rngExample initialState = Some st' /\
    NoDup (walls st') /\
    NoDup (wallKey <$> walls st') /\
    forall w, w ∈ walls st' -> wallInBounds 3 w.
Proof.
  eexists. split; [vm_compute; reflexivity|].
  exact (generated_walls_canonical 2 rngExample initialState _
           rngExample_shuffle_ok eq_refl).
Defined.

(** C8. A move request whose target cell is outside the grid changes
    nothing: the state is returned as it was (position, attempts, key flag,
    revealed walls and all other fields) and nothing is asked of the page. *)
Theorem move_outside_is_noop dir st :
  ~ inGrid st (neighbor (avatarPos st) dir) ->
  moveAvatar dir st = (st, []).
Proof. apply moveAvatar_outside. Qed.

Lemma move_outside_is_noop_witness :
  moveAvatar DirLeft (levelExample PRACTICE) = (levelExample PRACTICE, []).
Proof.
  apply (move_outside_is_noop DirLeft (levelExample PRACTICE)).
  unfold inGrid. cbn. lia.
Defined.

(** C9. The connectivity check ends for every state and every pair of
    cells: within [loopBound] iterations the loop has returned a boolean,
    the same with any larger number of iterations, and from a cell to
    itself the answer is [true]. *)
Theorem hasPath_terminates st start end_ :
  (forall extra,
     hasPathFuel (loopBound st + extra) st start end_
     = Some (hasPath st start end_)) /\
  hasPath st start start = true.
Proof.
  split; [|apply hasPath_same]. intros extra.
  apply hasPathLoop_more_fuel with (fuel := loopBound st); [|lia].
  apply hasPathFuel_total.
Qed.

(** C10. A move over an open edge to a cell of the grid puts the avatar on
    that cell; it may set the key flag (on the key cell) and end the level
    (on the door with the key); attempts, revealed walls, walls, key and
    door positions, grid size, mode, difficulty and level stay as they
    were. *)
Theorem open_move_frame dir st :
  inGrid st (neighbor (avatarPos st) dir) ->
  hasWall st (px (avatarPos st)) (py (avatarPos st)) dir = false ->
  let target := neighbor (avatarPos st) dir in
  let st' := (moveAvatar dir st).1 in
  st' = set_isPlaying
          (if samePos target (doorPos st) && hasKey st' then false
           else isPlaying st)
          (set_hasKey (hasKey st || samePos target (keyPos st))
             (set_avatarPos target st)) /\
  avatarPos st' = target /\
  attempts st' = attempts st /\
  revealedWalls st' = revealedWalls st /\
  walls st' = walls st /\
  keyPos st' = keyPos st /\
  doorPos st' = doorPos st.
Proof.
  intros Hin Hw. cbn zeta. rewrite moveAvatar_open_state by done.
  pose proof (checkEntityCollision_spec
                (set_avatarPos (neighbor (avatarPos st) dir) st)) as Hs.
  cbn zeta in Hs. split; [exact Hs|]. rewrite Hs. done.
Qed.

Lemma open_move_frame_witness :
  let st' := (moveAvatar DirTop (levelExample PRACTICE)).1 in
  avatarPos st' = mkPos 0 1 /\ attempts st' = 0 /\ revealedWalls st' = [] /\
  walls st' = walls (levelExample PRACTICE).
Proof.
  refine (let H := open_move_frame DirTop (levelExample PRACTICE) _ eq_refl in
          conj (proj1 (proj2 H))
            (conj (proj1 (proj2 (proj2 H)))
               (conj (proj1 (proj2 (proj2 (proj2 H))))
                     (proj1 (proj2 (proj2 (proj2 (proj2 H)))))))).
  unfold inGrid. cbn. lia.
Defined.

(** C3. In challenge mode one collision ends the run: [isPlaying] is
    cleared and the game-over alert is raised, and keyboard input is then
    ignored. The on-screen control buttons call [moveAvatar] without that
    test: after the failure in the example level, a press on the up button
    still moves the avatar from (0,2) to (0,1). *)
Theorem challenge_failure_then_button :
  let st := runMoves [DirRight] (levelExample CHALLENGE) in
  hasWall st (px (avatarPos st)) (py (avatarPos st)) DirRight = true /\
  let '(failed, ev) := moveAvatar DirRight st in
  AlertGameOver ∈ ev /\
  isPlaying failed = false /\
  avatarPos failed = mkPos 0 2 /\
  handleInput "ArrowUp" failed = (failed, []) /\
  avatarPos (controlButton DirTop failed).1 = mkPos 0 1 /\
  (controlButton DirTop failed).1 <> failed.
Proof.
  split; [vm_compute; reflexivity|].
  vm_compute. split_and!; try reflexivity.
  - set_solver.
  - discriminate.
Qed.

(** * Further properties *)

(** ** The connectivity check decides connectivity *)

Lemma fold_visit_sound st curr ds :
  (forall d, d ∈ ds -> d ∈ dirs) ->
  forall acc c,
    c ∈ (fold_left (visitNeighbor st curr) ds acc).1 ->
    c ∈ acc.1 \/ openStep st curr c.
Proof.
  induction ds as [|d ds IH]; intros Hds acc c Hc; [by left|].
  cbn [fold_left] in Hc.
  apply IH in Hc as [Hc|Hc]; [|by right|intros d' Hd'; apply Hds; by right].
  unfold visitNeighbor in Hc.
  destruct (_ && _) eqn:Hb; [|by left].
  destruct (hasWall _ _ _ _) eqn:Hw; cbn [negb] in Hc; [by left|].
  case_bool_decide; cbn [negb fst] in Hc; [by left|].
  apply elem_of_app in Hc as [Hc| ->%list_elem_of_singleton]; [by left|].
  right. exists d. split_and!; [apply Hds; by left|done| |done].
  unfold inGrid. cbn [px py]. zbool. lia.
Qed.

Lemma hasPathLoop_sound st start end_ : forall fuel queue visited,
  (forall c, c ∈ queue -> connected st start c) ->
  hasPathLoop fuel st end_ queue visited = Some true ->
  connected st start end_.
Proof.
  induction fuel as [|fuel IH]; intros queue visited Hq Hr; [done|].
  cbn [hasPathLoop] in Hr. destruct queue as [|curr rest]; [done|].
  destruct (_ && _) eqn:Hend.
  - zbool. replace end_ with curr; [apply Hq; by left|].
    destruct curr, end_; cbn in *; congruence.
  - apply IH in Hr; [done|]. intros c Hc.
    apply fold_visit_sound in Hc as [Hc|Hc]; [| |done].
    + apply Hq. by right.
    + eapply rtc_r; [|exact Hc]. apply Hq. by left.
Qed.

Lemma hasPath_sound st start end_ :
  hasPath st start end_ = true -> connected st start end_.
Proof.
  intros Hp. pose proof (hasPathFuel_total st start end_) as Hr.
  rewrite Hp in Hr. apply (hasPathLoop_sound st start) in Hr; [done|].
  intros c ->%list_elem_of_singleton. apply rtc_refl.
Qed.

(** X1. [hasPath] answers [true] exactly when a sequence of moves over open
    edges, each ending in the grid, leads from the first cell to the
    second. *)
Theorem hasPath_iff_connected st start end_ :
  hasPath st start end_ = true <-> connected st start end_.
Proof. split; [apply hasPath_sound|apply hasPath_complete]. Qed.

Lemma wallAt_mono st st' x y d :
  (forall w, w ∈ walls st -> w ∈ walls st') ->
  wallAt st x y d = true -> wallAt st' x y d = true.
Proof.
  unfold wallAt. intros Hsub (w & Hin & Hw)%existsb_exists.
  apply existsb_exists. exists w. split; [|done].
  by apply list_elem_of_In, Hsub, list_elem_of_In.
Qed.

Lemma hasWall_mono st st' x y d :
  (forall w, w ∈ walls st -> w ∈ walls st') ->
  hasWall st x y d = true -> hasWall st' x y d = true.
Proof. intros Hsub. destruct d; cbn [hasWall]; by apply wallAt_mono. Qed.

Lemma connected_mono st st' a b :
  gridSize st = gridSize st' ->
  (forall w, w ∈ walls st -> w ∈ walls st') ->
  connected st' a b -> connected st a b.
Proof.
  intros Hg Hsub. induction 1 as [|a c b Hs _ IH]; [apply rtc_refl|].
  eapply rtc_l; [|exact IH].
  destruct Hs as (d & Hd & -> & Hin & Hw). exists d.
  split_and!; [done|done|by unfold inGrid in *; rewrite Hg|].
  destruct (hasWall st _ _ _) eqn:Hw'; [|done].
  apply (hasWall_mono st st') in Hw'; [congruence|done].
Qed.

Lemma hasPath_mono st st' a b :
  gridSize st = gridSize st' ->
  (forall w, w ∈ walls st -> w ∈ walls st') ->
  hasPath st' a b = true -> hasPath st a b = true.
Proof.
  intros Hg Hsub Hp. apply hasPath_complete.
  eapply connected_mono; [done|done|]. by apply hasPath_sound.
Qed.

(** X2. Walls only ever block: with the same grid size, if the check finds
    a path in a state then it finds one in every state whose walls are
    among those of the first. *)
Theorem hasPath_fewer_walls st st' a b :
  gridSize st = gridSize st' ->
  (forall w, w ∈ walls st -> w ∈ walls st') ->
  hasPath st' a b = true -> hasPath st a b = true.
Proof. apply hasPath_mono. Qed.

Lemma hasPath_fewer_walls_witness :
  hasPath (set_walls [mkWall 1 2 DirRight] (levelExample PRACTICE))
          (mkPos 0 2) (mkPos 2 0) = true.
Proof.
  apply (hasPath_fewer_walls _ (levelExample PRACTICE)).
  - reflexivity.
  - cbn. intros w Hw. set_solver.
  - vm_compute. reflexivity.
Defined.

Lemma hasWall_sides st x y :
  hasWall st (x + 1) y DirLeft = hasWall st x y DirRight /\
  hasWall st x (y + 1) DirTop = hasWall st x y DirBottom /\
  collisionKey (x + 1) y DirLeft = collisionKey x y DirRight /\
  collisionKey x (y + 1) DirTop = collisionKey x y DirBottom.
Proof.
  unfold hasWall, collisionKey. by rewrite !Z.add_simpl_r.
Qed.

Lemma openStep_sym st a b : inGrid st a -> openStep st a b -> openStep st b a.
Proof.
  intros Ha (d & Hd & -> & Hb & Hw). destruct a as [x y].
  destruct (hasWall_sides st x y) as (Hl & Ht & _).
  destruct (hasWall_sides st (x - 1) y) as (Hl' & _).
  destruct (hasWall_sides st x (y - 1)) as (_ & Ht' & _).
  rewrite Z.sub_add in Hl', Ht'.
  assert (Hback : forall d', d' ∈ dirs ->
    dx d' = - dx d -> dy d' = - dy d ->
    hasWall st (x + dx d) (y + dy d) (ddir d') = false ->
    openStep st (moveBy (mkPos x y) d) (mkPos x y)).
  { intros d' Hd' Hx Hy Hw'. exists d'. unfold moveBy. cbn [px py].
    split_and!; [done|f_equal; lia|done|done]. }
  unfold dirs in Hd. cbn [px py] in Hw.
  repeat (apply elem_of_cons in Hd as [->|Hd]); [..|inversion Hd];
    cbn [ddir dx dy] in *.
  - apply (Hback (mkDelta 0 1 DirBottom)); [unfold dirs; set_solver|done|done|].
    cbn [ddir]. rewrite Z.add_0_r. change (y + -1) with (y - 1). congruence.
  - apply (Hback (mkDelta 0 (-1) DirTop)); [unfold dirs; set_solver|done|done|].
    cbn [ddir]. rewrite Z.add_0_r. congruence.
  - apply (Hback (mkDelta 1 0 DirRight)); [unfold dirs; set_solver|done|done|].
    cbn [ddir]. rewrite Z.add_0_r. change (x + -1) with (x - 1). congruence.
  - apply (Hback (mkDelta (-1) 0 DirLeft)); [unfold dirs; set_solver|done|done|].
    cbn [ddir]. rewrite Z.add_0_r. congruence.
Qed.

Lemma connected_inGrid st a b : inGrid st a -> connected st a b -> inGrid st b.
Proof.
  intros Ha. induction 1 as [|a c b Hs _ IH]; [done|].
  apply IH. by destruct Hs as (d & _ & -> & Hin & _).
Qed.

Lemma connected_sym st a b : inGrid st a -> connected st a b -> connected st b a.
Proof.
  intros Ha. induction 1 as [|a c b Hs _ IH]; [apply rtc_refl|].
  assert (Hc : inGrid st c) by (by destruct Hs as (d & _ & -> & Hin & _)).
  eapply rtc_r; [by apply IH|]. by apply openStep_sym.
Qed.

(** X4. Between two cells of the grid the answer does not depend on the
    direction of the question. *)
Theorem hasPath_symmetric st a b :
  inGrid st a -> inGrid st b -> hasPath st a b = hasPath st b a.
Proof.
  intros Ha Hb.
  destruct (hasPath st a b) eqn:Hab, (hasPath st b a) eqn:Hba; try done.
  - apply hasPath_sound, connected_sym, hasPath_complete in Hab; congruence.
  - apply hasPath_sound, connected_sym, hasPath_complete in Hba; congruence.
Qed.

Lemma hasPath_symmetric_witness :
  hasPath (levelExample PRACTICE) (mkPos 0 2) (mkPos 2 0)
  = hasPath (levelExample PRACTICE) (mkPos 2 0) (mkPos 0 2).
Proof.
  apply (hasPath_symmetric (levelExample PRACTICE)); unfold inGrid; cbn; lia.
Defined.

(** X3. A wall is the same from both sides: in a cell of the grid, a move
    to an in-grid neighbour is blocked exactly when the move back is, and
    the collision is recorded under the same key both ways. *)
Theorem wall_blocks_both_ways st p dir :
  let q := neighbor p dir in
  let back := match dir with
              | DirTop => DirBottom | DirBottom => DirTop
              | DirLeft => DirRight | DirRight => DirLeft
              end in
  neighbor q back = p /\
  hasWall st (px q) (py q) back = hasWall st (px p) (py p) dir /\
  collisionKey (px q) (py q) back = collisionKey (px p) (py p) dir.
Proof.
  destruct p as [x y]. cbn zeta.
  destruct (hasWall_sides st x y) as (Hl & Ht & Kl & Kt).
  destruct (hasWall_sides st (x - 1) y) as (Hl' & _ & Kl' & _).
  destruct (hasWall_sides st x (y - 1)) as (_ & Ht' & _ & Kt').
  rewrite Z.sub_add in Hl', Ht', Kl', Kt'.
  destruct dir; unfold neighbor; cbn [px py];
    (split_and!; [f_equal; lia|congruence|congruence]).
Qed.

(** ** More on the generator *)

(** X5. The candidate list built by the two nested loops holds exactly the
    right and bottom walls that are in bounds for the grid, each once;
    for a size N >= 0 there are 2 N (N - 1) of them. *)
Theorem possibleWalls_spec size :
  (forall w, w ∈ possibleWalls size <-> wallInBounds size w) /\
  NoDup (possibleWalls size) /\
  (0 <= size -> Z.of_nat (length (possibleWalls size)) = 2 * size * (size - 1)).
Proof.
  split_and!; [apply elem_of_possibleWalls|apply NoDup_possibleWalls
              |apply length_possibleWalls].
Qed.

Lemma possibleWalls_spec_witness :
  Z.of_nat (length (possibleWalls 4)) = 24.
Proof.
  refine (proj2 (proj2 (possibleWalls_spec 4)) _). lia.
Defined.

(** X6. The key of a generated level is never on the start cell nor on the
    door cell, which are the bottom-left and top-right corners. *)
Theorem generated_key_valid targetWalls rng st st' :
  generateLevelWith targetWalls rng st = Some st' ->
  avatarPos st' = mkPos 0 (gridSize st - 1) /\
  doorPos st' = mkPos (gridSize st - 1) 0 /\
  keyPos st' <> avatarPos st' /\
  keyPos st' <> doorPos st'.
Proof.
  intros Hg.
  apply generateLevelWith_spec in Hg as (key & kept & -> & _ & _ & Ha & Hd & _).
  cbn [keyPos avatarPos doorPos]. split_and!; done.
Qed.

Lemma generated_key_valid_witness :
  exists st',
    generateLevelWith 2 rngRetry initialState = Some st' /\
    keyPos st' <> avatarPos st' /\ keyPos st' <> doorPos st'.
Proof.
  eexists. split; [vm_compute; reflexivity|].
  refine (let H := generated_key_valid 2 rngRetry initialState _ eq_refl in
          conj (proj1 (proj2 (proj2 H))) (proj2 (proj2 (proj2 H)))).
Defined.

Lemma isSolvable_mono st ws ws' :
  (forall w, w ∈ ws -> w ∈ ws') ->
  isSolvable (set_walls ws' st) = true -> isSolvable (set_walls ws st) = true.
Proof.
  intros Hsub [H1 H2]%isSolvable_true. unfold isSolvable.
  cbn [avatarPos keyPos doorPos set_walls] in *.
  rewrite (hasPath_mono (set_walls ws st) (set_walls ws' st) _ _ eq_refl Hsub H1).
  cbn [negb].
  exact (hasPath_mono (set_walls ws st) (set_walls ws' st) _ _ eq_refl Hsub H2).
Qed.

(** When the loop ends below the target, each candidate it skipped still
    blocks the level once added to the final walls. *)
Lemma addWalls_maximal targetWalls : forall cands addedWalls st,
  let st' := addWalls targetWalls cands addedWalls st in
  targetWalls <= addedWalls + Z.of_nat (length (walls st'))
                 - Z.of_nat (length (walls st)) \/
  forall w, w ∈ cands ->
    w ∈ walls st' \/ isSolvable (set_walls (walls st' ++ [w]) st') = false.
Proof.
  induction cands as [|w rest IH]; intros a st; cbn zeta.
  - right. intros w Hw. inversion Hw.
  - cbn [addWalls]. destruct (targetWalls <=? a) eqn:Hbrk.
    + left. apply Z.leb_le in Hbrk. lia.
    + destruct (isSolvable (set_walls (walls st ++ [w]) st)) eqn:Hs;
        cbn [negb].
      * destruct (addWalls_spec targetWalls rest (a + 1)
                    (set_walls (walls st ++ [w]) st)) as (kept & Hres & _).
        specialize (IH (a + 1) (set_walls (walls st ++ [w]) st)). cbn zeta in IH.
        destruct IH as [IH|IH].
        -- left. cbn [walls set_walls] in IH. rewrite length_app in IH.
           cbn [length] in IH. lia.
        -- right. intros w' [->|Hw']%elem_of_cons; [|by apply IH].
           left. rewrite Hres. cbn [walls set_walls]. set_solver.
      * rewrite set_walls_pop.
        destruct (addWalls_spec targetWalls rest a st) as (kept & Hres & _).
        specialize (IH a st). cbn zeta in IH. destruct IH as [IH|IH]; [by left|].
        right. intros w' [->|Hw']%elem_of_cons; [|by apply IH].
        right. rewrite Hres. cbn [walls set_walls].
        destruct (isSolvable (set_walls ((walls st ++ kept) ++ [w]) _)) eqn:Hs';
          [|done].
        change (set_walls ((walls st ++ kept) ++ [w])
                  (set_walls (walls st ++ kept) st))
          with (set_walls ((walls st ++ kept) ++ [w]) st) in Hs'.
        apply (isSolvable_mono st (walls st ++ [w])) in Hs'; [congruence|].
        set_solver.
Qed.

(** X7. The generator does its best: either it returns exactly the target
    number of walls (none for a negative target), or every candidate it
    left out would cut the start from the key or the key from the door if
    it were added to the walls returned. *)
Theorem generated_maze_best_effort targetWalls rng st st' :
  generateLevelWith targetWalls rng st = Some st' ->
  Z.of_nat (length (walls st')) = Z.max 0 targetWalls \/
  forall w, w ∈ shuffle rng (possibleWalls (gridSize st)) ->
    w ∈ walls st' \/ isSolvable (set_walls (walls st' ++ [w]) st') = false.
Proof.
  intros Hg. pose proof Hg as Hspec.
  apply generateLevelWith_spec in Hspec as (key & kept & Heq & _ & Hlen & _).
  unfold generateLevelWith in Hg.
  destruct (pickKey _ _ _) as [st1|]; [|done]. cbn in Hg. injection Hg as Hg.
  pose proof (addWalls_maximal targetWalls
                (shuffle rng (possibleWalls (gridSize st))) 0 (set_walls [] st1))
    as Hmax.
  cbn zeta in Hmax. rewrite Hg in Hmax. destruct Hmax as [Hmax|Hmax].
  - left. rewrite Heq in *. cbn [walls set_walls length] in *. lia.
  - by right.
Qed.

Lemma generated_maze_best_effort_witness :
  exists st',
    generateLevelWith 20 rngExample initialState = Some st' /\
    (Z.of_nat (length (walls st')) = Z.max 0 20 \/
     forall w, w ∈ shuffle rngExample (possibleWalls (gridSize initialState)) ->
       w ∈ walls st' \/ isSolvable (set_walls (walls st' ++ [w]) st') = false).
Proof.
  eexists. split; [vm_compute; reflexivity|].
  exact (generated_maze_best_effort 20 rngExample initialState _ eq_refl).
Defined.

Lemma pickKey_single_cell : forall rs st,
  Forall (fun r => (0 <= r)%Q /\ (r < 1)%Q) rs ->
  avatarPos st = mkPos 0 0 -> doorPos st = mkPos 0 0 ->
  pickKey 1 rs st = None.
Proof.
  intros rs. remember (length rs) as n eqn:Hn. revert rs Hn.
  induction n as [n IH] using lt_wf_ind. intros rs Hn st Hok Ha Hd.
  destruct rs as [|rx [|ry rest]]; [done|done|].
  inversion Hok as [|? ? [? ?] Hok']; subst.
  inversion Hok' as [|? ? [? ?] Hok'']; subst.
  cbn [pickKey].
  assert (Hx : randomIndex rx 1 = 0) 
    by (pose proof (randomIndex_range rx 1 ltac:(done) ltac:(done) ltac:(lia)); lia).
  assert (Hy : randomIndex ry 1 = 0) 
    by (pose proof (randomIndex_range ry 1 ltac:(done) ltac:(done) ltac:(lia)); lia).
  rewrite Hx, Hy. cbn [keyPos set_keyPos avatarPos]. rewrite Ha. cbn [samePos orb].
  change (samePos (mkPos 0 0) (mkPos 0 0)) with true. cbn [orb].
  apply (IH (length rest)); [cbn [length]; lia|done|done|done|done].
Qed.

(** X8. On a grid of a single cell the start and the door are that cell
    and no draw can place the key: the placement loop never ends, whatever
    number of draws in [[0,1)] it is given. *)
Theorem generate_single_cell_never_returns targetWalls rng st :
  gridSize st = 1 -> rng_draws_ok rng ->
  generateLevelWith targetWalls rng st = None.
Proof.
  intros Hg Hok. unfold generateLevelWith. rewrite Hg.
  rewrite pickKey_single_cell; done.
Qed.

Lemma generate_single_cell_never_returns_witness :
  generateLevelWith 2 rngExample (set_gridSize 1 initialState) = None.
Proof.
  apply (generate_single_cell_never_returns 2 rngExample
           (set_gridSize 1 initialState) eq_refl rngExample_draws_ok).
Defined.

(** ** More on the navigation engine *)

Lemma samePos_true p q : samePos p q = true <-> p = q.
Proof.
  unfold samePos. split.
  - intros H. zbool. destruct p, q; cbn in *; congruence.
  - intros ->. by rewrite !Z.eqb_refl.
Qed.

Lemma samePos_neq p q : p <> q -> samePos p q = false.
Proof.
  intros Hne. destruct (samePos p q) eqn:Hs; [|done].
  by apply samePos_true in Hs.
Qed.

(** The three ways a move request can go, with the test that selects each. *)
Lemma moveAvatar_cases_full dir st :
  let target := neighbor (avatarPos st) dir in
  let x := px (avatarPos st) in
  let y := py (avatarPos st) in
  (~ inGrid st target /\ moveAvatar dir st = (st, [])) \/
  (inGrid st target /\ hasWall st x y dir = true /\
   moveAvatar dir st = handleCollision x y dir st) \/
  (inGrid st target /\ hasWall st x y dir = false /\
   moveAvatar dir st
   = (let '(st', ev) := checkEntityCollision (set_avatarPos target st) in
      (st', ev ++ [RenderGrid]))).
Proof.
  cbn zeta.
  destruct (decide (0 <= px (neighbor (avatarPos st) dir) < gridSize st /\
                    0 <= py (neighbor (avatarPos st) dir) < gridSize st))
    as [Hin|Hout].
  - right. destruct (hasWall st (px (avatarPos st)) (py (avatarPos st)) dir) eqn:Hw.
    + left. split_and!; [done|done|by apply moveAvatar_collision].
    + right. split_and!; [done|done|by apply moveAvatar_open].
  - left. split; [done|by apply moveAvatar_outside].
Qed.

(** Everything [checkEntityCollision] does, requests to the page included. *)
Lemma checkEntityCollision_full st :
  let onKey := samePos (avatarPos st) (keyPos st) in
  let pickup := negb (hasKey st) && onKey in
  let held := hasKey st || onKey in
  let win := samePos (avatarPos st) (doorPos st) && held in
  checkEntityCollision st
  = (set_isPlaying (if win then false else isPlaying st) (set_hasKey held st),
     (if pickup then [UpdateStats] else [])
     ++ (if win then [ClearTimer; ShowResult (attempts st); SaveScore;
                      ShowScreen ScreenSuccess]
         else [])).
Proof.
  unfold checkEntityCollision, endGame, samePos.
  destruct st as [? ? ? a k d h ? ? ? ? p]. cbn -[Z.eqb].
  destruct h; cbn -[Z.eqb];
    destruct (px a =? px k), (py a =? py k); cbn -[Z.eqb];
    destruct (px a =? px d), (py a =? py d); cbn; done.
Qed.

Lemma moveAvatar_open_full dir st :
  inGrid st (neighbor (avatarPos st) dir) ->
  hasWall st (px (avatarPos st)) (py (avatarPos st)) dir = false ->
  let target := neighbor (avatarPos st) dir in
  let onKey := samePos target (keyPos st) in
  let pickup := negb (hasKey st) && onKey in
  let held := hasKey st || onKey in
  let win := samePos target (doorPos st) && held in
  moveAvatar dir st
  = (set_isPlaying (if win then false else isPlaying st)
       (set_hasKey held (set_avatarPos target st)),
     (if pickup then [UpdateStats] else [])
     ++ (if win then [ClearTimer; ShowResult (attempts st); SaveScore;
                      ShowScreen ScreenSuccess]
         else [])
     ++ [RenderGrid]).
Proof.
  intros Hin Hw. cbn zeta. rewrite moveAvatar_open by done.
  rewrite checkEntityCollision_full. cbn zeta.
  cbn [avatarPos keyPos doorPos hasKey isPlaying attempts set_avatarPos].
  by rewrite <- (assoc_L (++)).
Qed.

(** X9. Stepping on the key cell over an open edge collects the key:
    [hasKey] is set, the stats are refreshed, and unless the cell is also
    the door nothing else changes but the position. *)
Theorem key_pickup dir st :
  inGrid st (neighbor (avatarPos st) dir) ->
  hasWall st (px (avatarPos st)) (py (avatarPos st)) dir = false ->
  neighbor (avatarPos st) dir = keyPos st ->
  keyPos st <> doorPos st ->
  hasKey st = false ->
  moveAvatar dir st
  = (set_hasKey true (set_avatarPos (keyPos st) st), [UpdateStats; RenderGrid]).
Proof.
  intros Hin Hw Ht Hkd Hk. rewrite moveAvatar_open_full by done. cbn zeta.
  rewrite Ht, Hk, (proj2 (samePos_true _ _) eq_refl), (samePos_neq _ _ Hkd).
  cbn. destruct st; cbn in *; by subst.
Qed.

Lemma key_pickup_witness :
  moveAvatar DirRight (set_avatarPos (mkPos 0 1) (levelExample PRACTICE))
  = (set_hasKey true (set_avatarPos (mkPos 1 1) (levelExample PRACTICE)),
     [UpdateStats; RenderGrid]).
Proof.
  apply (key_pickup DirRight (set_avatarPos (mkPos 0 1) (levelExample PRACTICE)));
    try reflexivity.
  - unfold inGrid. cbn. lia.
  - discriminate.
Defined.

(** X10. The door is locked without the key: stepping on the door cell
    over an open edge while the key is not collected only moves the avatar
    there; the level goes on and only a re-render is requested. *)
Theorem door_locked_without_key dir st :
  inGrid st (neighbor (avatarPos st) dir) ->
  hasWall st (px (avatarPos st)) (py (avatarPos st)) dir = false ->
  neighbor (avatarPos st) dir = doorPos st ->
  keyPos st <> doorPos st ->
  hasKey st = false ->
  moveAvatar dir st = (set_avatarPos (doorPos st) st, [RenderGrid]).
Proof.
  intros Hin Hw Ht Hkd Hk. rewrite moveAvatar_open_full by done. cbn zeta.
  assert (Hdk : samePos (doorPos st) (keyPos st) = false)
    by (apply samePos_neq; congruence).
  rewrite Ht, Hk, Hdk, (proj2 (samePos_true _ _) eq_refl). cbn.
  destruct st; cbn in *; by subst.
Qed.

Lemma door_locked_without_key_witness :
  moveAvatar DirTop (set_avatarPos (mkPos 2 1) (levelExample PRACTICE))
  = (set_avatarPos (mkPos 2 0) (levelExample PRACTICE), [RenderGrid]).
Proof.
  apply (door_locked_without_key DirTop
           (set_avatarPos (mkPos 2 1) (levelExample PRACTICE)));
    try reflexivity.
  - unfold inGrid. cbn. lia.
  - discriminate.
Defined.

(** X11. Stepping on the door cell over an open edge with the key collected
    completes the level: [isPlaying] is cleared, the timer is stopped, the
    result is shown with the attempts made, the score is saved and the
    success screen is shown, before the last re-render; attempts, walls and
    revealed walls are as before. *)
Theorem door_opens_with_key dir st :
  inGrid st (neighbor (avatarPos st) dir) ->
  hasWall st (px (avatarPos st)) (py (avatarPos st)) dir = false ->
  neighbor (avatarPos st) dir = doorPos st ->
  hasKey st = true ->
  moveAvatar dir st
  = (set_isPlaying false (set_avatarPos (doorPos st) st),
     [ClearTimer; ShowResult (attempts st); SaveScore;
      ShowScreen ScreenSuccess; RenderGrid]).
Proof.
  intros Hin Hw Ht Hk. rewrite moveAvatar_open_full by done. cbn zeta.
  rewrite Ht, Hk, (proj2 (samePos_true _ _) eq_refl). cbn.
  destruct st; cbn in *; by subst.
Qed.

Lemma door_opens_with_key_witness :
  let st := set_hasKey true (set_avatarPos (mkPos 2 1) (levelExample PRACTICE)) in
  moveAvatar DirTop st
  = (set_isPlaying false (set_avatarPos (mkPos 2 0) st),
     [ClearTimer; ShowResult 0; SaveScore; ShowScreen ScreenSuccess; RenderGrid]).
Proof.
  apply (door_opens_with_key DirTop
           (set_hasKey true (set_avatarPos (mkPos 2 1) (levelExample PRACTICE))));
    try reflexivity.
  unfold inGrid. cbn. lia.
Defined.

(** X12. What ends a level: a move request made while playing clears
    [isPlaying] exactly when it is a collision in challenge mode, or a step
    over an open edge onto the door with the key in hand after the step. *)
Theorem level_ends_iff dir st :
  isPlaying st = true ->
  let target := neighbor (avatarPos st) dir in
  let st' := (moveAvatar dir st).1 in
  isPlaying st' = false <->
  inGrid st target /\
  ((hasWall st (px (avatarPos st)) (py (avatarPos st)) dir = true /\
    mode st = CHALLENGE) \/
   (hasWall st (px (avatarPos st)) (py (avatarPos st)) dir = false /\
    target = doorPos st /\ hasKey st' = true)).
Proof.
  intros Hp. cbn zeta.
  destruct (moveAvatar_cases_full dir st) as [[Hout Hm]|[(Hin & Hw & Hm)|(Hin & Hw & Hm)]].
  - rewrite Hm. cbn [fst]. rewrite Hp. naive_solver.
  - rewrite Hm, handleCollision_spec, Hw. cbn [isPlaying set_isPlaying].
    destruct (mode st); rewrite ?Hp; naive_solver.
  - clear Hm. rewrite moveAvatar_open_full by done. cbn zeta.
    cbn [fst isPlaying hasKey set_isPlaying set_hasKey]. rewrite Hw, Hp.
    destruct (samePos _ (doorPos st)) eqn:Hd.
    + apply samePos_true in Hd.
      destruct (hasKey st || _); cbn [andb]; naive_solver.
    + cbn [andb]. split; [done|]. intros (_ & [[? _]|(_ & Ht & _)]); [done|].
      apply samePos_true in Ht. congruence.
Qed.

Lemma level_ends_iff_witness :
  isPlaying (moveAvatar DirRight
               (set_avatarPos (mkPos 1 2) (levelExample CHALLENGE))).1 = false.
Proof.
  apply (level_ends_iff DirRight
           (set_avatarPos (mkPos 1 2) (levelExample CHALLENGE)) eq_refl).
  split; [unfold inGrid; cbn; lia|]. left. split; reflexivity.
Defined.

(** ** Runs of move requests *)

Lemma runMoves_snoc ds d st :
  runMoves (ds ++ [d]) st = (moveAvatar d (runMoves ds st)).1.
Proof. by rewrite runMoves_app. Qed.

Lemma moveBy_neighbor c d : d ∈ dirs -> moveBy c d = neighbor c (ddir d).
Proof.
  unfold dirs. intros Hd.
  repeat (apply elem_of_cons in Hd as [->|Hd]); [..|inversion Hd];
    unfold moveBy, neighbor; cbn [dx dy ddir]; f_equal; lia.
Qed.

(** A path over open edges can be walked: the moves along it bring the
    avatar to its end without a collision. *)
Lemma walk_connected st a : forall b,
  connected st a b ->
  forall s, gridSize s = gridSize st -> walls s = walls st -> avatarPos s = a ->
  exists ds,
    let s' := runMoves ds s in
    avatarPos s' = b /\ attempts s' = attempts s /\
    revealedWalls s' = revealedWalls s /\ walls s' = walls s /\
    gridSize s' = gridSize s /\ keyPos s' = keyPos s /\ doorPos s' = doorPos s /\
    (hasKey s = true -> hasKey s' = true) /\
    (a <> b ->
     (b = keyPos s -> hasKey s' = true) /\
     (b = doorPos s -> hasKey s' = true -> isPlaying s' = false)).
Proof.
  apply (rtc_ind_r (fun b => forall s, gridSize s = gridSize st ->
    walls s = walls st -> avatarPos s = a -> exists ds, _)).
  - intros s _ _ Ha. exists []. cbn. split_and!; done.
  - intros c c' _ (d & Hd & -> & Hin & Hw) IH s Hg Hws Ha.
    destruct (IH s Hg Hws Ha)
      as (ds & Hc & Hat & Hrev & Hwl & Hgs & Hkp & Hdp & Hhk & _).
    cbn zeta in *. set (s1 := runMoves ds s) in *.
    rewrite moveBy_neighbor in * by done.
    assert (Hin1 : inGrid s1 (neighbor (avatarPos s1) (ddir d))).
    { unfold inGrid in *. rewrite Hc, Hgs, Hg. done. }
    assert (Hw1 : hasWall s1 (px (avatarPos s1)) (py (avatarPos s1)) (ddir d)
                  = false).
    { rewrite Hc, (hasWall_ext s1 st); [done|congruence]. }
    exists (ds ++ [ddir d]). rewrite runMoves_snoc. fold s1.
    rewrite moveAvatar_open_full by done. cbn zeta.
    cbn [fst avatarPos attempts revealedWalls walls gridSize keyPos doorPos
         hasKey isPlaying set_isPlaying set_hasKey set_avatarPos].
    rewrite Hc, Hkp, Hdp.
    split_and!; try done.
    + intros Hk. by rewrite (Hhk Hk).
    + intros _. split.
      * intros ->. rewrite (proj2 (samePos_true _ _) eq_refl).
        by rewrite orb_true_r.
      * intros -> ->. by rewrite (proj2 (samePos_true _ _) eq_refl).
Qed.

(** X13. Every level can be won without a single collision: from the state
    [startGame] returns there is a sequence of moves that collects the key,
    ends on the door with the level completed, and leaves the attempt
    counter at 0 and no wall revealed. *)
Theorem level_winnable_without_collision reset rng st0 st1 ev :
  rng_draws_ok rng -> 1 <= gridSize st0 ->
  startGame reset rng st0 = Some (st1, ev) ->
  exists ds,
    let s := runMoves ds st1 in
    hasKey s = true /\ avatarPos s = doorPos st1 /\ isPlaying s = false /\
    attempts s = 0 /\ revealedWalls s = [].
Proof.
  intros Hok Hn Hs.
  apply startGame_spec in Hs as (_ & Hat & Hrev & _ & st & Hg & _ & Hgen).
  unfold generateLevel in Hgen.
  assert (Hn' : 1 <= gridSize st) by lia.
  pose proof (generateLevelWith_solvable _ _ _ _ Hok Hn' Hgen) as Hsolv.
  apply isSolvable_true in Hsolv as [H1 H2].
  apply hasPath_sound in H1, H2.
  apply generateLevelWith_spec in Hgen as (key & kept & Heq & _ & _ & Hka & Hkd & _).
  assert (Hne1 : avatarPos st1 <> keyPos st1) by (rewrite Heq; cbn; congruence).
  assert (Hne2 : keyPos st1 <> doorPos st1) by (rewrite Heq; cbn; congruence).
  destruct (walk_connected st1 _ _ H1 st1 eq_refl eq_refl eq_refl)
    as (ds1 & Hc1 & Hat1 & Hrev1 & Hw1 & Hg1 & Hk1 & Hd1 & _ & Hlast1).
  cbn zeta in *. destruct (Hlast1 Hne1) as [Hkey _].
  destruct (walk_connected st1 _ _ H2 (runMoves ds1 st1) Hg1 Hw1 Hc1)
    as (ds2 & Hc2 & Hat2 & Hrev2 & _ & _ & _ & Hd2 & Hkeep & Hlast2).
  cbn zeta in *. destruct (Hlast2 Hne2) as [_ Hdoor].
  exists (ds1 ++ ds2). rewrite runMoves_app.
  assert (Hhk : hasKey (runMoves ds2 (runMoves ds1 st1)) = true)
    by (apply Hkeep, Hkey; done).
  split_and!; [done|done| |congruence|congruence].
  apply Hdoor; [congruence|done].
Qed.

Lemma level_winnable_without_collision_witness :
  exists ds,
    let s := runMoves ds (levelExample PRACTICE) in
    hasKey s = true /\ avatarPos s = mkPos 2 0 /\ isPlaying s = false /\
    attempts s = 0 /\ revealedWalls s = [].
Proof.
  refine (level_winnable_without_collision true rngExample
            (setMode PRACTICE initialState) (levelExample PRACTICE) _
            rngExample_draws_ok _ (startGame_example PRACTICE)).
  cbn. lia.
Defined.

Lemma moveAvatar_inGrid dir st :
  1 <= gridSize st -> inGrid st (avatarPos st) ->
  let st' := (moveAvatar dir st).1 in
  gridSize st' = gridSize st /\ inGrid st (avatarPos st').
Proof.
  intros Hn Hin. cbn zeta.
  destruct (moveAvatar_cases_full dir st) as [[_ Hm]|[(_ & _ & Hm)|(Ht & Hw & _)]].
  - by rewrite Hm.
  - rewrite Hm, handleCollision_spec. cbn. split; [done|].
    unfold inGrid. cbn [px py]. lia.
  - rewrite moveAvatar_open_full by done. done.
Qed.

(** X14. The avatar never leaves the grid: from the start of a level on a
    grid of positive size, after any sequence of move requests it stands on
    a cell of the grid. *)
Theorem avatar_stays_in_grid reset rng st0 st1 ev ds :
  1 <= gridSize st0 ->
  startGame reset rng st0 = Some (st1, ev) ->
  inGrid st1 (avatarPos (runMoves ds st1)).
Proof.
  intros Hn Hs.
  apply startGame_spec in Hs as (_ & _ & _ & _ & st & Hg & _ & Hgen).
  apply generateLevelWith_spec in Hgen as (key & kept & Heq & _).
  assert (H0 : 1 <= gridSize st1 /\ inGrid st1 (avatarPos st1)).
  { rewrite Heq. unfold inGrid. cbn. lia. }
  clear Heq. destruct H0 as [Hn1 Hin].
  enough (Hrun : gridSize (runMoves ds st1) = gridSize st1 /\
                 inGrid st1 (avatarPos (runMoves ds st1))) by apply Hrun.
  induction ds as [|d ds IH] using rev_ind; [done|].
  destruct IH as [Hgs Hcur]. rewrite runMoves_snoc.
  destruct (moveAvatar_inGrid d (runMoves ds st1)) as [Hg' Hin'].
  - lia.
  - unfold inGrid in *. by rewrite Hgs.
  - split; [congruence|]. unfold inGrid in *. by rewrite <- Hgs.
Qed.

Lemma avatar_stays_in_grid_witness :
  inGrid (levelExample PRACTICE)
    (avatarPos (runMoves [DirLeft; DirRight; DirRight; DirBottom; DirTop]
                  (levelExample PRACTICE))).
Proof.
  refine (avatar_stays_in_grid true rngExample (setMode PRACTICE initialState)
            (levelExample PRACTICE) _ _ _ (startGame_example PRACTICE)).
  cbn. lia.
Defined.

Lemma moveAvatar_counters dir st :
  let st' := (moveAvatar dir st).1 in
  (NoDup (revealedWalls st) -> NoDup (revealedWalls st')) /\
  attempts st <= attempts st' <= attempts st + 1 /\
  Z.of_nat (length (revealedWalls st')) - attempts st'
  <= Z.of_nat (length (revealedWalls st)) - attempts st.
Proof.
  cbn zeta.
  destruct (moveAvatar_cases_full dir st) as [[_ Hm]|[(_ & _ & Hm)|(Ht & Hw & _)]].
  - rewrite Hm. cbn [fst]. split_and!; [done|lia|lia|lia].
  - rewrite Hm, handleCollision_spec.
    cbn [revealedWalls attempts set_isPlaying set_avatarPos set_revealedWalls
         set_attempts].
    destruct (includes _ _) eqn:Hinc.
    + split_and!; [done|lia|lia|lia].
    + split_and!; [|lia|lia|rewrite length_app; cbn [length]; lia].
      intros Hnd. apply NoDup_app. split_and!; [done| |apply NoDup_singleton].
      intros k Hk ->%list_elem_of_singleton.
      apply includes_spec in Hk. congruence.
  - rewrite moveAvatar_open_full by done. cbn. split_and!; [done|lia|lia|lia].
Qed.

(** X15. Over a level, the revealed list never holds a key twice, each
    revealed wall has cost at least one attempt, every move request costs at
    most one attempt, and no more walls are revealed than the maze has. *)
Theorem revealed_and_attempts reset rng st0 st1 ev ds :
  startGame reset rng st0 = Some (st1, ev) ->
  let s := runMoves ds st1 in
  NoDup (revealedWalls s) /\
  Z.of_nat (length (revealedWalls s)) <= attempts s <= Z.of_nat (length ds) /\
  (length (revealedWalls s) <= length (walls st1))%nat.
Proof.
  intros Hs. cbn zeta.
  pose proof Hs as (_ & Hat & Hrev & _)%startGame_spec.
  assert (Hrun : NoDup (revealedWalls (runMoves ds st1)) /\
    0 <= attempts (runMoves ds st1) <= Z.of_nat (length ds) /\
    Z.of_nat (length (revealedWalls (runMoves ds st1)))
    - attempts (runMoves ds st1) <= 0).
  { induction ds as [|d ds IH] using rev_ind.
    - cbn. rewrite Hat, Hrev. cbn. split_and!; [constructor|lia|lia|lia].
    - destruct IH as (Hnd & Hle & Hdiff). rewrite runMoves_snoc.
      destruct (moveAvatar_counters d (runMoves ds st1)) as (Hnd' & Hat' & Hd').
      rewrite length_app. cbn [length]. split_and!; [auto|lia|lia|lia]. }
  destruct Hrun as (Hnd & Hle & Hdiff). split_and!; [done|lia|lia|].
  destruct (runMoves_summary ds st1) as (_ & _ & _ & Hsub).
  assert (Hsub1 : revealedSubset (runMoves ds st1)).
  { apply Hsub. intros k. rewrite Hrev. by intros ?%elem_of_nil. }
  destruct (runMoves_summary ds st1) as (Hw & _).
  rewrite <- (length_fmap wallKey (walls st1)). apply submseteq_length.
  apply NoDup_submseteq; [done|]. intros k Hk.
  apply Hsub1 in Hk as (w & Hin & <-). rewrite Hw in Hin.
  apply list_elem_of_fmap. eauto.
Qed.

Lemma revealed_and_attempts_witness :
  let s := runMoves [DirRight; DirRight; DirRight; DirRight] (levelExample PRACTICE) in
  NoDup (revealedWalls s) /\
  Z.of_nat (length (revealedWalls s)) <= attempts s <= 4 /\
  (length (revealedWalls s) <= 2)%nat.
Proof.
  exact (revealed_and_attempts true rngExample (setMode PRACTICE initialState)
           (levelExample PRACTICE) _ [DirRight; DirRight; DirRight; DirRight]
           (startGame_example PRACTICE)).
Defined.

Lemma runMoves_keyPos : forall ds st, keyPos (runMoves ds st) = keyPos st.
Proof.
  induction ds as [|d ds IH] using rev_ind; intros st; [done|].
  rewrite runMoves_snoc.
  destruct (moveAvatar_summary d (runMoves ds st)) as (_ & _ & Hk & _).
  by rewrite Hk.
Qed.

(** X16. The key flag is only ever set by standing on the key cell: if a
    run that starts without the key ends with it, then at some point of the
    run the avatar was on the key cell. *)
Theorem key_requires_visit ds st :
  hasKey st = false ->
  hasKey (runMoves ds st) = true ->
  exists ds1 ds2, ds = ds1 ++ ds2 /\ avatarPos (runMoves ds1 st) = keyPos st.
Proof.
  intros Hno. induction ds as [|d ds IH] using rev_ind.
  - cbn. congruence.
  - rewrite runMoves_snoc. intros Hk.
    destruct (hasKey (runMoves ds st)) eqn:Hprev.
    + destruct (IH eq_refl) as (ds1 & ds2 & -> & Hat).
      exists ds1, (ds2 ++ [d]). by rewrite (assoc_L (++)).
    + exists (ds ++ [d]), []. rewrite app_nil_r. split; [done|].
      rewrite runMoves_snoc. rewrite <- (runMoves_keyPos ds st).
      destruct (moveAvatar_cases_full d (runMoves ds st))
        as [[_ Hm]|[(_ & _ & Hm)|(Ht & Hw & _)]].
      * rewrite Hm in Hk. cbn in Hk. congruence.
      * rewrite Hm, handleCollision_spec in Hk. cbn in Hk. congruence.
      * rewrite moveAvatar_open_full in * by done. cbn zeta in *.
        cbn [fst hasKey avatarPos set_isPlaying set_hasKey set_avatarPos] in *.
        rewrite Hprev in Hk. cbn [orb] in Hk. by apply samePos_true in Hk.
Qed.

Lemma key_requires_visit_witness :
  exists ds1 ds2,
    [DirTop; DirRight] = ds1 ++ ds2 /\
    avatarPos (runMoves ds1 (levelExample PRACTICE)) = mkPos 1 1.
Proof.
  exact (key_requires_visit [DirTop; DirRight] (levelExample PRACTICE)
           eq_refl eq_refl).
Defined.

(** ** Rendering *)

Lemma elem_of_renderGrid st c :
  c ∈ renderGrid st <->
  exists x y, inGrid st (mkPos x y) /\ c = renderCell st x y.
Proof.
  unfold renderGrid, inGrid. cbn [px py]. rewrite list_elem_of_bind. split.
  - intros (y & (x & ->%list_elem_of_singleton & Hx%elem_of_seqZ)%list_elem_of_bind
              & Hy%elem_of_seqZ).
    exists x, y. split; [lia|done].
  - intros (x & y & [Hx Hy] & ->). exists y. split; [|apply elem_of_seqZ; lia].
    apply list_elem_of_bind. exists x. split; [|apply elem_of_seqZ; lia].
    by apply list_elem_of_singleton.
Qed.

Lemma NoDup_renderGrid st : NoDup (renderGrid st).
Proof.
  unfold renderGrid. apply NoDup_bind; [| |apply NoDup_seqZ].
  - intros y1 y2 c _ _
      (x1 & ->%list_elem_of_singleton & _)%list_elem_of_bind
      (x2 & Heq%list_elem_of_singleton & _)%list_elem_of_bind.
    unfold renderCell in Heq. congruence.
  - intros y _. apply NoDup_bind; [| |apply NoDup_seqZ].
    + intros x1 x2 c _ _ ->%list_elem_of_singleton Heq%list_elem_of_singleton.
      unfold renderCell in Heq. congruence.
    + intros x _. apply NoDup_singleton.
Qed.

Lemma length_renderGrid st :
  0 <= gridSize st ->
  Z.of_nat (length (renderGrid st)) = gridSize st * gridSize st.
Proof.
  intros Hn. unfold renderGrid. set (n := gridSize st) in *.
  assert (Hlen : forall l k : list Z,
    length (y ← l; x ← k; [renderCell st x y]) = (length l * length k)%nat).
  { intros l k. induction l as [|a l IH]; csimpl; [done|].
    rewrite length_app, IH. f_equal. clear IH.
    induction k as [|b k IHk]; csimpl; [done|]. by rewrite IHk. }
  rewrite Hlen, !length_seqZ. nia.
Qed.

(** X17. [renderGrid] creates one cell for each cell of the grid and no
    other: N * N cells, pairwise different, the cell for (x, y) being the
    one [renderCell] describes. *)
Theorem renderGrid_cells st :
  (forall c, c ∈ renderGrid st <->
             exists x y, inGrid st (mkPos x y) /\ c = renderCell st x y) /\
  NoDup (renderGrid st) /\
  (0 <= gridSize st ->
   Z.of_nat (length (renderGrid st)) = gridSize st * gridSize st).
Proof.
  split_and!; [apply elem_of_renderGrid|apply NoDup_renderGrid
              |apply length_renderGrid].
Qed.

Lemma renderGrid_cells_witness :
  Z.of_nat (length (renderGrid (levelExample PRACTICE))) = 3 * 3.
Proof.
  refine (proj2 (proj2 (renderGrid_cells (levelExample PRACTICE))) _).
  cbn. lia.
Defined.

Lemma NoDup_all_equal {A} (l : list A) (c : A) :
  NoDup l -> c ∈ l -> (forall x, x ∈ l -> x = c) -> l = [c].
Proof.
  intros Hnd Hc Hall. destruct l as [|a l]; [inversion Hc|].
  assert (a = c) as -> by (apply Hall; by left).
  destruct l as [|b l]; [done|].
  assert (b = c) as -> by (apply Hall; right; by left).
  apply NoDup_cons in Hnd as [Hnd _]. exfalso. apply Hnd. by left.
Qed.

(** X18. While the avatar is on a cell of the grid, exactly one rendered
    cell carries it: the cell at its position. *)
Theorem renderGrid_avatar_once st :
  inGrid st (avatarPos st) ->
  filter (fun c => cv_avatar c = true) (renderGrid st)
  = [renderCell st (px (avatarPos st)) (py (avatarPos st))].
Proof.
  intros Hin. apply NoDup_all_equal.
  - apply NoDup_filter, NoDup_renderGrid.
  - apply list_elem_of_filter. split.
    + cbn. by rewrite !Z.eqb_refl.
    + apply elem_of_renderGrid. exists (px (avatarPos st)), (py (avatarPos st)).
      split; [by destruct (avatarPos st)|done].
  - intros c [Hav (x & y & _ & ->)%elem_of_renderGrid]%list_elem_of_filter.
    cbn in Hav. zbool. by subst.
Qed.

Lemma renderGrid_avatar_once_witness :
  filter (fun c => cv_avatar c = true) (renderGrid (levelExample PRACTICE))
  = [renderCell (levelExample PRACTICE) 0 2].
Proof.
  apply (renderGrid_avatar_once (levelExample PRACTICE)).
  unfold inGrid. cbn. lia.
Defined.

(** X19. Walls stay invisible until hit: over a level, whenever a rendered
    cell shows a wall on its right or below it, the maze has that wall. *)
Theorem rendered_walls_are_maze_walls reset rng st0 st1 ev ds c :
  startGame reset rng st0 = Some (st1, ev) ->
  c ∈ renderGrid (runMoves ds st1) ->
  (cv_wallRight c = true -> mkWall (cv_x c) (cv_y c) DirRight ∈ walls st1) /\
  (cv_wallBottom c = true -> mkWall (cv_x c) (cv_y c) DirBottom ∈ walls st1).
Proof.
  intros Hs (x & y & _ & ->)%elem_of_renderGrid.
  apply startGame_spec in Hs as (_ & _ & Hrev & _).
  destruct (runMoves_summary ds st1) as (Hw & _ & _ & Hsub).
  assert (Hsub1 : revealedSubset (runMoves ds st1)).
  { apply Hsub. intros k. rewrite Hrev. by intros ?%elem_of_nil. }
  cbn [cv_wallRight cv_wallBottom cv_x cv_y renderCell].
  split; intros (w & Hin & Hk)%includes_spec%Hsub1; rewrite Hw in Hin.
  - apply (wallKey_inj w (mkWall x y DirRight)) in Hk. by subst.
  - apply (wallKey_inj w (mkWall x y DirBottom)) in Hk. by subst.
Qed.

Lemma rendered_walls_are_maze_walls_witness :
  let c := renderCell (runMoves [DirRight; DirRight] (levelExample PRACTICE)) 1 2 in
  cv_wallRight c = true /\
  mkWall 1 2 DirRight ∈ walls (levelExample PRACTICE).
Proof.
  split; [vm_compute; reflexivity|].
  refine (proj1 (rendered_walls_are_maze_walls true rngExample
                   (setMode PRACTICE initialState) (levelExample PRACTICE) _
                   [DirRight; DirRight]
                   (renderCell (runMoves [DirRight; DirRight]
                                         (levelExample PRACTICE)) 1 2)
                   (startGame_example PRACTICE) _) eq_refl).
  apply elem_of_renderGrid. exists 1, 2. split; [|reflexivity].
  unfold inGrid. vm_compute. repeat split; done.
Defined.

(** X20. A wall that is hit becomes visible: after a collision of an avatar
    standing in the grid, the cell that owns the crossed wall is rendered
    with that wall shown (on its right for a horizontal move, below it for a
    vertical one). *)
Theorem collision_wall_rendered dir st :
  inGrid st (avatarPos st) ->
  inGrid st (neighbor (avatarPos st) dir) ->
  hasWall st (px (avatarPos st)) (py (avatarPos st)) dir = true ->
  let st' := (moveAvatar dir st).1 in
  let c := renderCell st' (px (wallCell (avatarPos st) dir))
                          (py (wallCell (avatarPos st) dir)) in
  c ∈ renderGrid st' /\
  match dir with
  | DirLeft | DirRight => cv_wallRight c = true
  | DirTop | DirBottom => cv_wallBottom c = true
  end.
Proof.
  intros Ha Hn Hw. cbn zeta. rewrite moveAvatar_collision by done.
  rewrite handleCollision_spec. split.
  - apply elem_of_renderGrid. eexists _, _. split; [|reflexivity].
    unfold inGrid in *. cbn [gridSize set_isPlaying set_avatarPos
      set_revealedWalls set_attempts px py].
    destruct dir; cbn [wallCell]; done.
  - assert (Hk : collisionKey (px (avatarPos st)) (py (avatarPos st)) dir
                 ∈ (if includes (collisionKey (px (avatarPos st))
                                   (py (avatarPos st)) dir) (revealedWalls st)
                    then revealedWalls st
                    else revealedWalls st
                         ++ [collisionKey (px (avatarPos st))
                               (py (avatarPos st)) dir])).
    { destruct (includes _ _) eqn:Hinc; [by apply includes_spec|].
      apply elem_of_app. right. by apply list_elem_of_singleton. }
    apply includes_spec in Hk.
    destruct dir; cbn [wallCell neighbor px py cv_wallRight cv_wallBottom
      renderCell revealedWalls set_isPlaying set_avatarPos set_revealedWalls
      collisionKey] in *; exact Hk.
Qed.

Lemma collision_wall_rendered_witness :
  let st' := (moveAvatar DirLeft
                (set_avatarPos (mkPos 2 2) (levelExample PRACTICE))).1 in
  renderCell st' 1 2 ∈ renderGrid st' /\
  cv_wallRight (renderCell st' 1 2) = true.
Proof.
  refine (collision_wall_rendered DirLeft
            (set_avatarPos (mkPos 2 2) (levelExample PRACTICE)) _ _ eq_refl);
    unfold inGrid; cbn; lia.
Defined.

(** ** Clock and score *)

Lemma padStart2_two_digits n :
  0 <= n < 100 ->
  padStart2 (pretty n)
  = String (digitChar (n / 10)) (String (digitChar (n mod 10)) "").
Proof.
  intros Hn.
  assert (Hall : forallb (fun k => bool_decide (padStart2 (pretty k)
            = String (digitChar (k / 10)) (String (digitChar (k mod 10)) "")))
          (seqZ 0 100) = true) by (vm_compute; reflexivity).
  rewrite forallb_forall in Hall.
  apply (proj1 (bool_decide_eq_true _)), Hall, list_elem_of_In, elem_of_seqZ. lia.
Qed.

(** X21. During the first hundred minutes of a level the time field reads
    MM:SS: two digits of minutes, a colon, two digits of seconds, for the
    whole seconds elapsed since the level started. *)
Theorem updateTimer_format now startTime :
  startTime <= now < startTime + 6000000 ->
  let t := (now - startTime) / 1000 in
  updateTimer now startTime
  = String (digitChar (t / 600))
      (String (digitChar ((t / 60) mod 10))
         (String ":"
            (String (digitChar ((t mod 60) / 10))
               (String (digitChar (t mod 10)) "")))).
Proof.
  intros Hn. cbn zeta. unfold updateTimer, elapsedSeconds.
  set (t := (now - startTime) / 1000).
  assert (Ht : 0 <= t < 6000).
  { subst t. split; [apply Z.div_pos; lia|apply Z.div_lt_upper_bound; lia]. }
  rewrite Z.rem_mod_nonneg by lia.
  assert (Hm : 0 <= t / 60 < 100).
  { split; [apply Z.div_pos; lia|apply Z.div_lt_upper_bound; lia]. }
  assert (Hs : 0 <= t mod 60 < 100).
  { pose proof (Z.mod_pos_bound t 60 ltac:(lia)). lia. }
  rewrite (padStart2_two_digits _ Hm), (padStart2_two_digits _ Hs).
  rewrite Z.div_div by lia. change (60 * 10) with 600.
  replace ((t mod 60) mod 10) with (t mod 10); [done|].
  symmetry. apply Z.mod_mod_divide. exists 6. lia.
Qed.

Lemma updateTimer_format_witness :
  updateTimer 1083500 1000000 = "01:23".
Proof.
  refine (updateTimer_format 1083500 1000000 _). lia.
Defined.

(** X22. The score is between 0 and 1000; a later finish or more attempts
    never give a higher score; it is 1000 exactly for a finish within the
    first second without a collision, and 0 from twenty attempts on. *)
Theorem finalScore_bounds now now' startTime st st' :
  startTime <= now <= now' ->
  0 <= attempts st <= attempts st' ->
  0 <= finalScore now' startTime st' <= finalScore now startTime st /\
  finalScore now startTime st <= 1000 /\
  (finalScore now startTime st = 1000 <->
   now < startTime + 1000 /\ attempts st = 0) /\
  (20 <= attempts st -> finalScore now startTime st = 0).
Proof.
  intros Hn Ha. unfold finalScore, score, elapsedSeconds.
  assert (H0 : 0 <= (now - startTime) / 1000) by (apply Z.div_pos; lia).
  assert (Hm : (now - startTime) / 1000 <= (now' - startTime) / 1000)
    by (apply Z.div_le_mono; lia).
  assert (Hz : (now - startTime) / 1000 = 0 <-> now < startTime + 1000).
  { rewrite Z.div_small_iff by lia. lia. }
  split_and!; try lia.
Qed.

Lemma finalScore_bounds_witness :
  0 <= finalScore 12000 0 (set_attempts 3 (levelExample PRACTICE))
    <= finalScore 10000 0 (set_attempts 2 (levelExample PRACTICE)) /\
  finalScore 10000 0 (set_attempts 2 (levelExample PRACTICE)) = 850.
Proof.
  split; [|reflexivity].
  refine (proj1 (finalScore_bounds 10000 12000 0
                   (set_attempts 2 (levelExample PRACTICE))
                   (set_attempts 3 (levelExample PRACTICE)) _ _)); cbn; lia.
Defined.

(** ** Starting levels *)

Lemma startGame_full reset rng st st' ev :
  startGame reset rng st = Some (st', ev) ->
  exists key kept,
    st' = mkState (difficulty st) (mode st) (gridSize st)
            (mkPos 0 (gridSize st - 1)) key (mkPos (gridSize st - 1) 0)
            false 0 kept [] (if reset then 1 else currentLevel st) true /\
    Z.of_nat (length kept) <= cfg_walls (CONFIG (difficulty st)) /\
    (rng_draws_ok rng -> 1 <= gridSize st -> isSolvable st' = true).
Proof.
  unfold startGame. intros Hs.
  destruct (generateLevel _ _) as [st1|] eqn:Hg; [|done].
  cbn in Hs. injection Hs as <- <-. unfold generateLevel in Hg.
  pose proof Hg as (key & kept & -> & _ & Hlen & _)%generateLevelWith_spec.
  exists key, kept. split_and!.
  - by destruct reset.
  - destruct reset; cbn in Hlen |- *; destruct (difficulty st); cbn in *; lia.
  - intros Hok Hn. eapply generateLevelWith_solvable; [exact Hok| |exact Hg].
    by destruct reset.
Qed.

(** X23. Choosing a difficulty and starting a game gives a level of that
    difficulty: the grid has the configured size (3, 4 or 5), there are at
    most the configured number of walls (2, 6 or 12), the avatar is at the
    bottom left and the door at the top right, the run state is fresh, the
    mode is kept, and with draws in [[0,1)] the level is solvable. *)
Theorem startGame_after_selectDifficulty d reset rng st st' ev :
  startGame reset rng (selectDifficulty d st) = Some (st', ev) ->
  difficulty st' = d /\
  gridSize st' = cfg_size (CONFIG d) /\
  mode st' = mode st /\
  Z.of_nat (length (walls st')) <= cfg_walls (CONFIG d) /\
  avatarPos st' = mkPos 0 (cfg_size (CONFIG d) - 1) /\
  doorPos st' = mkPos (cfg_size (CONFIG d) - 1) 0 /\
  hasKey st' = false /\ attempts st' = 0 /\ revealedWalls st' = [] /\
  isPlaying st' = true /\
  currentLevel st' = (if reset then 1 else currentLevel st) /\
  (rng_draws_ok rng -> isSolvable st' = true).
Proof.
  intros (key & kept & -> & Hlen & Hsolv)%startGame_full.
  cbn in *. split_and!; try done.
  intros Hok. apply Hsolv; [done|]. destruct d; cbn; lia.
Qed.

Lemma startGame_select_example :
  startGame true rngExample
    (selectDifficulty EASY (selectDifficulty HARD initialState))
  = Some (levelExample PRACTICE,
          [RenderGrid; UpdateStats; StartTimer;
           HideScreen ScreenStart; HideScreen ScreenSuccess]).
Proof. vm_compute. reflexivity. Qed.

Lemma startGame_after_selectDifficulty_witness :
  gridSize (levelExample PRACTICE) = 3 /\
  Z.of_nat (length (walls (levelExample PRACTICE))) <= 2 /\
  isSolvable (levelExample PRACTICE) = true.
Proof.
  refine (let H := startGame_after_selectDifficulty EASY true rngExample
                     (selectDifficulty HARD initialState) _ _
                     startGame_select_example in
          conj (proj1 (proj2 H))
            (conj (proj1 (proj2 (proj2 (proj2 H))))
               (proj2 (proj2 (proj2 (proj2 (proj2 (proj2 (proj2 (proj2
                 (proj2 (proj2 (proj2 H)))))))))) rngExample_draws_ok))).
Defined.

Lemma pickKey_currentLevel n size : forall rs st,
  pickKey size rs (set_currentLevel n st)
  = set_currentLevel n <$> pickKey size rs st.
Proof.
  intros rs. remember (length rs) as m eqn:Hm. revert rs Hm.
  induction m as [m IH] using lt_wf_ind. intros rs Hm st.
  destruct rs as [|rx [|ry rest]]; [done|done|].
  cbn [pickKey]. cbn [keyPos avatarPos doorPos set_keyPos set_currentLevel].
  destruct (_ || _); [|done].
  assert (Hlt : (length rest < m)%nat) by (cbn [length] in Hm; lia).
  exact (IH (length rest) Hlt rest eq_refl
           (set_keyPos (mkPos (randomIndex rx size) (randomIndex ry size)) st)).
Qed.

Lemma addWalls_currentLevel n targetWalls : forall cands addedWalls st,
  addWalls targetWalls cands addedWalls (set_currentLevel n st)
  = set_currentLevel n (addWalls targetWalls cands addedWalls st).
Proof.
  induction cands as [|w rest IH]; intros a st; cbn [addWalls]; [done|].
  destruct (targetWalls <=? a); [done|].
  rewrite (isSolvable_ext (set_walls (walls (set_currentLevel n st) ++ [w])
                             (set_currentLevel n st))
                          (set_walls (walls st ++ [w]) st)) by done.
  destruct (isSolvable _); cbn [negb].
  - exact (IH (a + 1) (set_walls (walls st ++ [w]) st)).
  - exact (IH a (set_walls
                   (removelast (walls (set_walls (walls st ++ [w]) st)))
                   (set_walls (walls st ++ [w]) st))).
Qed.

Lemma generateLevelWith_currentLevel n targetWalls rng st :
  generateLevelWith targetWalls rng (set_currentLevel n st)
  = set_currentLevel n <$> generateLevelWith targetWalls rng st.
Proof.
  unfold generateLevelWith.
  pose proof (pickKey_currentLevel n (gridSize st) (draws rng)
                (set_doorPos (mkPos (gridSize st - 1) 0)
                   (set_avatarPos (mkPos 0 (gridSize st - 1)) st))) as Hk.
  change (pickKey (gridSize (set_currentLevel n st)) (draws rng) _)
    with (pickKey (gridSize st) (draws rng)
            (set_currentLevel n
               (set_doorPos (mkPos (gridSize st - 1) 0)
                  (set_avatarPos (mkPos 0 (gridSize st - 1)) st)))).
  rewrite Hk. clear Hk. destruct (pickKey _ _ _) as [st1|]; cbn; [|done].
  f_equal.
  exact (addWalls_currentLevel n targetWalls
           (shuffle rng (possibleWalls (gridSize st))) 0 (set_walls [] st1)).
Qed.

Lemma startGame_currentLevel n rng st :
  startGame false rng (set_currentLevel n st)
  = (fun r => (set_currentLevel n r.1, r.2)) <$> startGame false rng st.
Proof.
  unfold startGame, generateLevel.
  pose proof (generateLevelWith_currentLevel n
                (cfg_walls (CONFIG (difficulty st))) rng
                (set_revealedWalls [] (set_hasKey false (set_attempts 0
                   (set_isPlaying true st))))) as Hg.
  change (generateLevelWith _ rng
            (set_revealedWalls [] (set_hasKey false (set_attempts 0
               (set_isPlaying true (set_currentLevel n st))))))
    with (generateLevelWith (cfg_walls (CONFIG (difficulty st))) rng
            (set_currentLevel n
               (set_revealedWalls [] (set_hasKey false (set_attempts 0
                  (set_isPlaying true st)))))).
  rewrite Hg. clear Hg.
  change (generateLevelWith
            (cfg_walls (CONFIG (difficulty
               (set_revealedWalls [] (set_hasKey false (set_attempts 0
                  (set_isPlaying true st))))))))
    with (generateLevelWith (cfg_walls (CONFIG (difficulty st)))).
  by destruct (generateLevelWith _ _ _); cbn.
Qed.

(** X24. The level number plays no part in the maze: with the same
    randomness, the next-level button and the restart button build the same
    level and ask the same of the page; the states they leave differ only in
    [currentLevel], which the first raises by one and the second keeps. *)
Theorem next_level_is_restart_plus_one rng st stN evN stR evR :
  nextLevelClick rng st = Some (stN, evN) ->
  restartClick rng st = Some (stR, evR) ->
  stN = set_currentLevel (currentLevel st + 1) stR /\
  currentLevel stR = currentLevel st /\
  evN = evR.
Proof.
  unfold nextLevelClick, restartClick. rewrite startGame_currentLevel.
  destruct (startGame false rng st) as [[s ev]|] eqn:Hs; [|done].
  cbn. intros [= <- <-] [= <- <-].
  apply startGame_full in Hs as (key & kept & -> & _). done.
Qed.

Lemma nextLevelClick_example :
  nextLevelClick rngExample (levelExample PRACTICE)
  = Some (set_currentLevel 2 (levelExample PRACTICE),
          [HideScreen ScreenSuccess; RenderGrid; UpdateStats; StartTimer;
           HideScreen ScreenStart; HideScreen ScreenSuccess]).
Proof. vm_compute. reflexivity. Qed.

Lemma restartClick_example :
  restartClick rngExample (levelExample PRACTICE)
  = Some (levelExample PRACTICE,
          [HideScreen ScreenSuccess; RenderGrid; UpdateStats; StartTimer;
           HideScreen ScreenStart; HideScreen ScreenSuccess]).
Proof. vm_compute. reflexivity. Qed.

Lemma next_level_is_restart_plus_one_witness :
  set_currentLevel 2 (levelExample PRACTICE)
  = set_currentLevel (currentLevel (levelExample PRACTICE) + 1)
      (levelExample PRACTICE) /\
  currentLevel (levelExample PRACTICE) = currentLevel (levelExample PRACTICE).
Proof.
  refine (let H := next_level_is_restart_plus_one rngExample
                     (levelExample PRACTICE) _ _ _ _
                     nextLevelClick_example restartClick_example in
          conj (proj1 H) (proj1 (proj2 H))).
Defined.

(** ** Keyboard play *)

Lemma runKeys_snoc keys k st :
  runKeys (keys ++ [k]) st = (handleInput k (runKeys keys st)).1.
Proof. unfold runKeys. by rewrite fold_left_app. Qed.

Lemma runKeys_not_playing : forall keys st,
  isPlaying st = false -> runKeys keys st = st.
Proof.
  induction keys as [|k keys IH]; intros st Hp; [done|].
  change (runKeys (k :: keys) st) with (runKeys keys (handleInput k st).1).
  rewrite handleInput_not_playing by done. by apply IH.
Qed.

(** X25. Challenge mode gives one attempt per level to a keyboard player:
    over any sequence of key presses after [startGame] the attempt counter
    never exceeds 1, and once it is 1 the level is over and no further key
    press changes the state. *)
Theorem challenge_one_attempt_by_keyboard reset rng st0 st1 ev keys :
  startGame reset rng st0 = Some (st1, ev) ->
  mode st1 = CHALLENGE ->
  let s := runKeys keys st1 in
  0 <= attempts s <= 1 /\
  (attempts s = 1 ->
   isPlaying s = false /\ forall keys', runKeys keys' s = s).
Proof.
  intros Hs Hm. cbn zeta.
  apply startGame_spec in Hs as (_ & Hat & _).
  assert (Hinv : mode (runKeys keys st1) = CHALLENGE /\
    (attempts (runKeys keys st1) = 0 \/
     (attempts (runKeys keys st1) = 1 /\ isPlaying (runKeys keys st1) = false))).
  { induction keys as [|k keys IH] using rev_ind; [by split; [|left]|].
    destruct IH as [Hmode Hcases]. rewrite runKeys_snoc.
    set (s := runKeys keys st1) in *. unfold handleInput.
    destruct (isPlaying s) eqn:Hp; cbn [negb fst];
      [|split; [done|]; destruct Hcases as [?|[? _]]; [by left|by right]].
    destruct Hcases as [H0|[_ ?]]; [|done].
    destruct (keyDir k) as [dir|]; [|split; [done|by left]].
    destruct (moveAvatar_cases_full dir s)
      as [[_ Hmv]|[(_ & _ & Hmv)|(Hin & Hw & _)]].
    - rewrite Hmv. cbn [fst]. split; [done|by left].
    - rewrite Hmv, handleCollision_spec, Hmode. cbn. split; [done|].
      right. split; [lia|done].
    - rewrite moveAvatar_open_full by done. cbn. split; [done|by left]. }
  destruct Hinv as [_ [H0|[H1 Hp]]].
  - split; [lia|]. intros; lia.
  - split; [lia|]. intros _. split; [done|].
    intros keys'. by apply runKeys_not_playing.
Qed.

Lemma challenge_one_attempt_by_keyboard_witness :
  let s := runKeys ["d"; "d"; "w"; "ArrowRight"; "d"] (levelExample CHALLENGE) in
  0 <= attempts s <= 1 /\ attempts s = 1.
Proof.
  split; [|vm_compute; reflexivity].
  exact (proj1 (challenge_one_attempt_by_keyboard true rngExample
                  (setMode CHALLENGE initialState) (levelExample CHALLENGE) _
                  ["d"; "d"; "w"; "ArrowRight"; "d"]
                  (startGame_example CHALLENGE) eq_refl)).
Defined.
